(** * chessProject: the move-legality engine of [main.py]

    A shallow embedding of [ChessBoard] and of the Python operations it relies
    on (list indexing with negative indices, integer true division, exceptions),
    followed by the properties of the engine.

    Conventions.
    - Python [int] is [Z]; a position is a pair [Z * Z] (row, column).
    - A Python [float] is an IEEE 754 binary64 value, [spec_float] with
      [prec = 53] and [emax = 1024].
    - A call that may raise returns [result A]: [Ok a] or [Raise e].
    - [self.board] is a list of rows, each row a list of [option Piece];
      [None] is Python's [None].  Every cell built by [__init__] holds its own
      [Piece] object and [make_move] relocates it, so no object is ever
      shared between two cells and cells are modelled by value. *)

From Stdlib Require Import ZArith Lia Bool.
From Stdlib Require Import Floats.
From stdpp Require Import base option list strings gmap.

Open Scope Z_scope.

(** ** Python semantics used by the program *)

Module Py.

Inductive exn :=
| IndexError | NameError | AttributeError | ZeroDivisionError | OverflowError.

Inductive result (A : Type) :=
| Ok (a : A)
| Raise (e : exn).
Arguments Ok {A} a.
Arguments Raise {A} e.

Definition bind {A B} (m : result A) (k : A -> result B) : result B :=
  match m with
  | Ok a => k a
  | Raise e => Raise e
  end.

(** [l[i]] index resolution: [0 <= i < len] is taken as is, [-len <= i < 0]
    counts from the end, anything else raises [IndexError]. *)
Definition index (len : nat) (i : Z) : result nat :=
  if (0 <=? i) && (i <? Z.of_nat len) then Ok (Z.to_nat i)
  else if (- Z.of_nat len <=? i) && (i <? 0) then Ok (Z.to_nat (Z.of_nat len + i))
  else Raise IndexError.

(** [l[i]] *)
Definition getitem {A} (l : list A) (i : Z) : result A :=
  bind (index (length l) i) (fun n =>
    match l !! n with
    | Some x => Ok x
    | None => Raise IndexError
    end).

(** [l[i] = x] *)
Definition setitem {A} (l : list A) (i : Z) (x : A) : result (list A) :=
  bind (index (length l) i) (fun n => Ok (<[n := x]> l)).

(** binary64 *)
Definition prec : Z := 53.
Definition emax : Z := 1024.

(** [float('inf')] *)
Definition inf : spec_float := S754_infinity false.

(** The float an [int] literal is compared with ([slope == 0],
    [abs(slope) == 1]): the correctly rounded conversion, exact below
    [2^53]. *)
Definition float_of_int (z : Z) : spec_float :=
  binary_normalize prec emax z 0 false.

(** An integer as an unrounded mantissa with exponent 0, the exact operand
    of the division below. *)
Definition exact (z : Z) : spec_float :=
  match z with
  | Z0 => S754_zero false
  | Zpos p => S754_finite false p 0
  | Zneg p => S754_finite true p 0
  end.

(** [a / b] on two [int]s: the quotient of the exact values rounded once
    to nearest-even; [ZeroDivisionError] for [b == 0], [OverflowError]
    when the rounded quotient exceeds the largest finite float. *)
Definition truediv (a b : Z) : result spec_float :=
  if b =? 0 then Raise ZeroDivisionError
  else match SFdiv prec emax (exact a) (exact b) with
       | S754_infinity _ => Raise OverflowError
       | q => Ok q
       end.

(** [x == y] on floats, and on a float and an [int]. *)
Definition feq (x y : spec_float) : bool := SFeqb x y.
Definition feq_int (x : spec_float) (z : Z) : bool := SFeqb x (float_of_int z).

(** [abs(x)] on a float. *)
Definition fabs (x : spec_float) : spec_float := SFabs x.

(** [sorted(l)] on a list of [int]s. *)
Fixpoint insert_sorted (x : Z) (l : list Z) : list Z :=
  match l with
  | [] => [x]
  | y :: l' => if x <=? y then x :: y :: l' else y :: insert_sorted x l'
  end.

Definition sorted (l : list Z) : list Z := foldr insert_sorted [] l.

End Py.

Import Py.

Notation "x <- m ;; k" := (Py.bind m (fun x => k))
  (at level 100, m at next level, right associativity).

(** ** Data model: [PieceType], [Color], [Piece] *)

Inductive PieceType := PAWN | KNIGHT | BISHOP | ROOK | QUEEN | KING.

Inductive Color := WHITE | BLACK.

Record Piece := mkPiece {
  piece_type : PieceType;
  color : Color;
  has_moved : bool
}.

#[global] Instance PieceType_eq_dec : EqDecision PieceType.
Proof. solve_decision. Defined.

#[global] Instance Color_eq_dec : EqDecision Color.
Proof. solve_decision. Defined.

(** [Piece(piece_type, color)]: [has_moved] defaults to [False]. *)
Definition new_piece (t : PieceType) (c : Color) : Piece := mkPiece t c false.

(** [piece.has_moved = True] *)
Definition set_has_moved (p : Piece) : Piece :=
  mkPiece (piece_type p) (color p) true.

Definition pos : Type := Z * Z.

Definition grid : Type := list (list (option Piece)).

Record ChessBoard := mkBoard {
  board : grid;
  current_turn : Color
}.

(** [self.board[row][col]] *)
Definition board_get (g : grid) (row col : Z) : result (option Piece) :=
  r <- getitem g row ;; getitem r col.

(** [self.board[row][col] = v]: the row object is fetched, then updated in
    place. *)
Definition board_set (g : grid) (row col : Z) (v : option Piece) : result grid :=
  r <- getitem g row ;;
  r' <- setitem r col v ;;
  setitem g row r'.

(** The shape [__init__] builds and every method preserves: 8 rows of 8
    cells. *)
Definition wf_board (g : grid) : Prop :=
  length g = 8%nat /\ Forall (fun r => length r = 8%nat) g.

(** ** Geometry primitives *)

Definition calculate_slope (start_pos end_pos : pos) : result spec_float :=
  let '(start_row, start_col) := start_pos in
  let '(end_row, end_col) := end_pos in
  if end_col - start_col =? 0 then Ok inf
  else truediv (end_row - start_row) (end_col - start_col).

Definition calculate_distance (start_pos end_pos : pos) : Z :=
  let '(start_row, start_col) := start_pos in
  let '(end_row, end_col) := end_pos in
  Z.max (Z.abs (end_row - start_row)) (Z.abs (end_col - start_col)).

(** ** Piece legality predicates *)

Definition _is_valid_bishop_move (slope : spec_float) : bool :=
  feq_int (fabs slope) 1.

Definition _is_valid_rook_move (slope : spec_float) : bool :=
  feq_int slope 0 || feq slope inf.

Definition _is_valid_queen_move (slope : spec_float) : bool :=
  feq_int slope 0 || feq slope inf || feq_int (fabs slope) 1.

Definition _is_valid_king_move (slope : spec_float) (distance : Z) : bool :=
  (feq_int slope 0 || feq slope inf || feq_int (fabs slope) 1) && (distance =? 1).

Definition _is_valid_knight_move (start_pos end_pos : pos) : bool :=
  let '(start_row, start_col) := start_pos in
  let '(end_row, end_col) := end_pos in
  let row_diff := Z.abs (end_row - start_row) in
  let col_diff := Z.abs (end_col - start_col) in
  bool_decide (sorted [row_diff; col_diff] = [1; 2]).

(** Module-level names of [main.py] that are bound to a [Piece].  The module
    binds only its imports and its four classes ([Enum], [List], [Tuple],
    [Optional], [dataclass], [PieceType], [Color], [Piece], [ChessBoard]), so
    there is none. *)
Definition module_globals : gmap string Piece := ∅.

(** A name that is neither a parameter nor assigned in the function body is
    looked up at module level. *)
Definition load_global (name : string) : result Piece :=
  match module_globals !! name with
  | Some v => Ok v
  | None => Raise NameError
  end.

Definition _is_valid_pawn_move (self : ChessBoard) (start_pos end_pos : pos)
    (color : Color) : result bool :=
  let '(start_row, start_col) := start_pos in
  let '(end_row, end_col) := end_pos in
  let direction := if bool_decide (color = BLACK) then 1 else -1 in
  if start_col =? end_col then
    if end_row - start_row =? direction then
      target <- board_get (board self) end_row end_col ;;
      Ok (bool_decide (target = None))
    else
      (* [piece] is not bound in this method *)
      piece <- load_global "piece" ;;
      if negb (has_moved piece) && (end_row - start_row =? 2 * direction) then
        let middle_row := start_row + direction in
        middle <- board_get (board self) middle_row start_col ;;
        if bool_decide (middle = None) then
          target <- board_get (board self) end_row end_col ;;
          Ok (bool_decide (target = None))
        else Ok false
      else Ok false
  else if (Z.abs (end_col - start_col) =? 1) && (end_row - start_row =? direction) then
    target <- board_get (board self) end_row end_col ;;
    Ok (negb (bool_decide (target = None)))
  else Ok false.

Definition _is_within_bounds (p : pos) : bool :=
  let '(row, col) := p in
  (0 <=? row) && (row <? 8) && ((0 <=? col) && (col <? 8)).

Definition get_piece (self : ChessBoard) (row col : Z) : result (option Piece) :=
  if _is_within_bounds (row, col) then board_get (board self) row col
  else Ok None.

(** ** Move legality dispatch and application *)

Definition is_valid_move (self : ChessBoard) (start_pos end_pos : pos) : result bool :=
  if negb (_is_within_bounds end_pos) then Ok false
  else
    let '(start_row, start_col) := start_pos in
    let '(end_row, end_col) := end_pos in
    piece <- board_get (board self) start_row start_col ;;
    match piece with
    | None => Ok false
    | Some piece =>
      (* [self.board[end_row][end_col] and ....color == piece.color]: a
         [Piece] object is always truthy, so the first conjunct tests for
         [None]; both reads of the cell see the same value *)
      target <- board_get (board self) end_row end_col ;;
      if match target with
         | Some t => bool_decide (color t = color piece)
         | None => false
         end
      then Ok false
      else
        slope <- calculate_slope start_pos end_pos ;;
        let distance := calculate_distance start_pos end_pos in
        match piece_type piece with
        | BISHOP => Ok (_is_valid_bishop_move slope)
        | ROOK => Ok (_is_valid_rook_move slope)
        | QUEEN => Ok (_is_valid_queen_move slope)
        | KNIGHT => Ok (_is_valid_knight_move start_pos end_pos)
        | KING => Ok (_is_valid_king_move slope distance)
        | PAWN => _is_valid_pawn_move self start_pos end_pos (color piece)
        end
    end.

(** [piece.has_moved = True], seen from the grid: the object is referenced by
    the cell it was just stored in (and by no other), so the flag shows in
    that cell; a cell that no longer holds a piece is left alone. *)
Definition mark_moved (g : grid) (row col : Z) : grid :=
  match board_get g row col with
  | Ok (Some p) =>
    match board_set g row col (Some (set_has_moved p)) with
    | Ok g' => g'
    | Raise _ => g
    end
  | _ => g
  end.

(** [make_move] mutates [self]: it returns its outcome together with the
    board after the call.  An exception leaves the mutations made before it
    in place. *)
Definition make_move (start_pos end_pos : pos) (self : ChessBoard)
    : result bool * ChessBoard :=
  match is_valid_move self start_pos end_pos with
  | Raise e => (Raise e, self)
  | Ok false => (Ok false, self)
  | Ok true =>
    let '(start_row, start_col) := start_pos in
    let '(end_row, end_col) := end_pos in
    let turn := current_turn self in
    match board_get (board self) start_row start_col with
    | Raise e => (Raise e, self)
    | Ok piece =>
      match board_set (board self) end_row end_col piece with
      | Raise e => (Raise e, self)
      | Ok g1 =>
        match board_set g1 start_row start_col None with
        | Raise e => (Raise e, mkBoard g1 turn)
        | Ok g2 =>
          match piece with
          | None => (Raise AttributeError, mkBoard g2 turn)
          | Some _ =>
            (Ok true,
             mkBoard (mark_moved g2 end_row end_col)
                     (if bool_decide (turn = WHITE) then BLACK else WHITE))
          end
        end
      end
    end
  end.

(** ** Path-obstruction check *)

(** The [while] loop of [is_path_clear].  One unit of [fuel] pays for one
    evaluation of the loop condition; [None] means the fuel ran out before
    the loop was left. *)
Fixpoint path_loop (fuel : nat) (g : grid) (current_row current_col : Z)
    (row_step col_step : Z) (end_pos : pos) : option (result bool) :=
  match fuel with
  | O => None
  | S fuel' =>
    if bool_decide ((current_row, current_col) = end_pos) then Some (Ok true)
    else
      match board_get g current_row current_col with
      | Raise e => Some (Raise e)
      | Ok (Some _) => Some (Ok false)
      | Ok None =>
        path_loop fuel' g (current_row + row_step) (current_col + col_step)
                  row_step col_step end_pos
      end
  end.

Definition is_path_clear (fuel : nat) (self : ChessBoard) (start_pos end_pos : pos)
    : option (result bool) :=
  let '(start_row, start_col) := start_pos in
  let '(end_row, end_col) := end_pos in
  let row_step := if start_row =? end_row then 0
                  else (end_row - start_row) `div` Z.abs (end_row - start_row) in
  let col_step := if start_col =? end_col then 0
                  else (end_col - start_col) `div` Z.abs (end_col - start_col) in
  let current_row := start_row + row_step in
  let current_col := start_col + col_step in
  path_loop fuel (board self) current_row current_col row_step col_step end_pos.

(** ** Construction *)

Definition piece_order : list PieceType :=
  [ROOK; KNIGHT; BISHOP; QUEEN; KING; BISHOP; KNIGHT; ROOK].

(** [range(n)] *)
Definition range (n : nat) : list Z := Z.of_nat <$> seq 0 n.

(** [for x in xs: body] over a grid, stopping at the first exception. *)
Fixpoint for_each {A} (xs : list A) (body : A -> grid -> result grid) (g : grid)
    : result grid :=
  match xs with
  | [] => Ok g
  | x :: xs' => g' <- body x g ;; for_each xs' body g'
  end.

Definition _initialize_board (g : grid) : result grid :=
  g <- for_each (range 8) (fun col g =>
         g <- board_set g 1 col (Some (new_piece PAWN WHITE)) ;;
         board_set g 6 col (Some (new_piece PAWN BLACK))) g ;;
  for_each (range 8) (fun col g =>
    t <- getitem piece_order col ;;
    g <- board_set g 0 col (Some (new_piece t WHITE)) ;;
    t <- getitem piece_order col ;;
    board_set g 7 col (Some (new_piece t BLACK))) g.

(** [ChessBoard()] *)
Definition ChessBoard_init : result ChessBoard :=
  let empty := (fun _ => (fun _ => None) <$> range 8) <$> range 8 in
  g <- _initialize_board empty ;;
  Ok (mkBoard g WHITE).

(** The board [ChessBoard()] returns, written out. *)
Definition initial_board : ChessBoard :=
  let back c := (fun t => Some (new_piece t c)) <$> piece_order in
  let pawns c := replicate 8 (Some (new_piece PAWN c)) in
  let empty_row : list (option Piece) := replicate 8 None in
  mkBoard [back WHITE; pawns WHITE; empty_row; empty_row;
           empty_row; empty_row; pawns BLACK; back BLACK] WHITE.

(** A run of [make_move] calls on one board: the board after the calls if
    every call returned [True], [None] as soon as one did not. *)
Fixpoint make_moves (moves : list (pos * pos)) (self : ChessBoard)
    : option ChessBoard :=
  match moves with
  | [] => Some self
  | (start_pos, end_pos) :: moves' =>
    match make_move start_pos end_pos self with
    | (Ok true, self') => make_moves moves' self'
    | _ => None
    end
  end.

(** ** Specification-side definitions *)

(** Differences between two indices in [-8..7]. *)
Definition board_deltas : list Z := (fun k => -15 + Z.of_nat k) <$> seq 0 31.

(** What the three float tests of the predicates decide on the slope of a
    move with deltas [dr], [dc], in integer terms. *)
Definition slope_agrees (dr dc : Z) : bool :=
  match calculate_slope (0, 0) (dr, dc) with
  | Ok slope =>
    eqb (feq_int slope 0) ((dr =? 0) && negb (dc =? 0))
    && eqb (feq slope inf) (dc =? 0)
    && eqb (feq_int (fabs slope) 1) ((Z.abs dr =? Z.abs dc) && negb (dc =? 0))
  | Raise _ => false
  end.

(** The exact-integer bishop test the specification proposes:
    [|drow| == |dcol|] with both deltas nonzero. *)
Definition bishop_exact (start_pos end_pos : pos) : bool :=
  let '(start_row, start_col) := start_pos in
  let '(end_row, end_col) := end_pos in
  (Z.abs (end_row - start_row) =? Z.abs (end_col - start_col))
  && negb (end_row - start_row =? 0) && negb (end_col - start_col =? 0).

(** Rook geometry in the specification's words: pure horizontal or pure
    vertical. *)
Definition pure_horizontal (start_pos end_pos : pos) : Prop :=
  end_pos.1 - start_pos.1 = 0 /\ end_pos.2 - start_pos.2 <> 0.

Definition pure_vertical (start_pos end_pos : pos) : Prop :=
  end_pos.2 - start_pos.2 = 0 /\ end_pos.1 - start_pos.1 <> 0.


(** A component of a position lies on the board. *)
Definition on_board (p : pos) : Prop := 0 <= p.1 < 8 /\ 0 <= p.2 < 8.

(** The destination holds no piece of the mover's colour. *)
Definition not_own_piece (self : ChessBoard) (end_pos : pos) (mover : Piece) : Prop :=
  forall q, board_get (board self) end_pos.1 end_pos.2 = Ok (Some q) ->
            color q <> color mover.

(** The pawn's direction of advance. *)
Definition direction_of (c : Color) : Z := if bool_decide (c = BLACK) then 1 else -1.

(** A grid that is empty except for one piece at in-bounds [(row, col)]. *)
Definition lone_piece (row col : nat) (p : Piece) : grid :=
  <[row := <[col := Some p]> (replicate 8 None)]> (replicate 8 (replicate 8 None)).

(** The position of the specification's pawn example: a white pawn that has
    not moved on (6,3), nothing else on the board. *)
Definition pawn_example : ChessBoard :=
  mkBoard (lone_piece 6 3 (new_piece PAWN WHITE)) WHITE.

(** The starting position with white's pawn rank removed. *)
Definition no_white_pawns : ChessBoard :=
  mkBoard (<[1%nat := replicate 8 None]> (board initial_board)) WHITE.

(** [Color.BLACK if turn == Color.WHITE else Color.WHITE] *)
Definition other_turn (turn : Color) : Color :=
  if bool_decide (turn = WHITE) then BLACK else WHITE.

(** Two knight moves, both by white. *)
Definition two_white_moves : list (pos * pos) :=
  [((0, 1), (2, 2)); ((2, 2), (4, 3))].

(** Start and end lie on one horizontal, vertical or diagonal line. *)
Definition colinear (start_pos end_pos : pos) : Prop :=
  end_pos.1 - start_pos.1 = 0 \/ end_pos.2 - start_pos.2 = 0
  \/ Z.abs (end_pos.1 - start_pos.1) = Z.abs (end_pos.2 - start_pos.2).

(** [p] is a square of the segment from start to end other than its two
    endpoints: it lies on the line through them (zero cross product) and
    inside their bounding box. *)
Definition strictly_between (start_pos end_pos p : pos) : Prop :=
  p <> start_pos /\ p <> end_pos /\
  (p.1 - start_pos.1) * (end_pos.2 - start_pos.2)
  = (p.2 - start_pos.2) * (end_pos.1 - start_pos.1) /\
  Z.min start_pos.1 end_pos.1 <= p.1 <= Z.max start_pos.1 end_pos.1 /\
  Z.min start_pos.2 end_pos.2 <= p.2 <= Z.max start_pos.2 end_pos.2.

(** The [k]-th square on the way from start towards end. *)
Definition nth_square (start_pos end_pos : pos) (k : Z) : pos :=
  (start_pos.1 + k * Z.sgn (end_pos.1 - start_pos.1),
   start_pos.2 + k * Z.sgn (end_pos.2 - start_pos.2)).

(** ** Definitions for the properties of the grid and of runs of calls *)

(** The list position an index in [-8..7] resolves to on a list of 8. *)
Definition norm_index (i : Z) : nat := Z.to_nat (i `mod` 8).

(** The cell at list positions [(r, c)], if the grid has one. *)
Definition grid_lookup (g : list (list (option Piece))) (r c : nat)
    : option (option Piece) :=
  match g !! r with
  | Some row => row !! c
  | None => None
  end.

(** The grid with the cell at list positions [(r, c)] replaced. *)
Definition grid_insert (r c : nat) (v : option Piece)
    (g : list (list (option Piece))) : list (list (option Piece)) :=
  alter (fun row => <[c := v]> row) r g.

(** 1 for a cell that holds a piece; 1 for a cell that holds a piece of
    colour [c]. *)
Definition cell_weight (cell : option Piece) : nat :=
  if cell is Some _ then 1%nat else 0%nat.

Definition color_weight (c : Color) (cell : option Piece) : nat :=
  match cell with
  | Some p => if bool_decide (color p = c) then 1%nat else 0%nat
  | None => 0%nat
  end.

(** Number of pieces on the grid, and of pieces of one colour. *)
Definition count_pieces (g : list (list (option Piece))) : nat :=
  sum_list_with (sum_list_with cell_weight) g.

Definition count_color (c : Color) (g : list (list (option Piece))) : nat :=
  sum_list_with (sum_list_with (color_weight c)) g.

(** The board after a run of [make_move] calls, whatever each returned or
    raised. *)
Fixpoint run_calls (moves : list (pos * pos)) (self : ChessBoard) : ChessBoard :=
  match moves with
  | [] => self
  | (start_pos, end_pos) :: moves' =>
    run_calls moves' (make_move start_pos end_pos self).2
  end.

(** Every index of a position is one the grid accepts. *)
Definition indexable (p : pos) : Prop := -8 <= p.1 < 8 /\ -8 <= p.2 < 8.

(** The square of the board an indexable position denotes. *)
Definition wrapped (p : pos) : pos := (p.1 `mod` 8, p.2 `mod` 8).

(** The sum of a weight over the cells of the grid. *)
Definition weigh (w : option Piece -> nat) (g : list (list (option Piece))) : nat :=
  sum_list_with (sum_list_with w) g.

(** The geometry of each kind but the pawn on integer deltas, without a
    float: the classification the predicates are meant to compute. *)
Definition integer_geometry (kind : PieceType) (dr dc : Z) : bool :=
  match kind with
  | BISHOP => (Z.abs dr =? Z.abs dc) && negb (dc =? 0)
  | ROOK => (dr =? 0) || (dc =? 0)
  | QUEEN => (dr =? 0) || (dc =? 0) || (Z.abs dr =? Z.abs dc)
  | KING => Z.max (Z.abs dr) (Z.abs dc) =? 1
  | KNIGHT => ((Z.abs dr =? 1) && (Z.abs dc =? 2)) || ((Z.abs dr =? 2) && (Z.abs dc =? 1))
  | PAWN => false
  end.

(** The number of cells a scan can still read along a coordinate [x] that
    moves by [d]: the indices the grid accepts are [-8..7]. *)
Definition scan_room (x d : Z) : Z := if d =? 1 then 8 - x else 9 + x.

(** ** Python indexing on lists and on the grid *)

Ltac zbool :=
  repeat match goal with
  | |- context [?a <=? ?b] => destruct (Z.leb_spec0 a b)
  | |- context [?a <? ?b] => destruct (Z.ltb_spec0 a b)
  | |- context [?a =? ?b] => destruct (Z.eqb_spec a b)
  end; simpl; try lia; try reflexivity.

Lemma index_nonneg (len : nat) (i : Z) :
  0 <= i < Z.of_nat len -> index len i = Ok (Z.to_nat i).
Proof. intros H. unfold index. zbool. Qed.

Lemma index_negative (len : nat) (i : Z) :
  - Z.of_nat len <= i < 0 -> index len i = Ok (Z.to_nat (Z.of_nat len + i)).
Proof. intros H. unfold index. zbool. Qed.

Lemma index_out_of_range (len : nat) (i : Z) :
  Z.of_nat len <= i \/ i < - Z.of_nat len -> index len i = Raise IndexError.
Proof. intros H. unfold index. zbool. Qed.

Lemma getitem_nonneg {A} (l : list A) (i : Z) :
  0 <= i < Z.of_nat (length l) ->
  exists x, l !! Z.to_nat i = Some x /\ getitem l i = Ok x.
Proof.
  intros H. unfold getitem. rewrite index_nonneg by exact H. simpl.
  destruct (lookup_lt_is_Some_2 l (Z.to_nat i)) as [x Hx]; [lia|].
  exists x. rewrite Hx. split; reflexivity.
Qed.

Lemma getitem_negative {A} (l : list A) (i : Z) :
  - Z.of_nat (length l) <= i < 0 ->
  getitem l i = getitem l (Z.of_nat (length l) + i).
Proof.
  intros H. unfold getitem.
  rewrite index_negative by exact H.
  rewrite index_nonneg by lia. reflexivity.
Qed.

Lemma getitem_out_of_range {A} (l : list A) (i : Z) :
  Z.of_nat (length l) <= i \/ i < - Z.of_nat (length l) ->
  getitem l i = Raise IndexError.
Proof.
  intros H. unfold getitem. rewrite index_out_of_range by exact H. reflexivity.
Qed.

Lemma getitem_IndexError_only {A} (l : list A) (i : Z) (e : exn) :
  getitem l i = Raise e -> e = IndexError.
Proof.
  unfold getitem, index.
  destruct ((0 <=? i) && (i <? Z.of_nat (length l))); simpl.
  - destruct (l !! Z.to_nat i); congruence.
  - destruct ((- Z.of_nat (length l) <=? i) && (i <? 0)); simpl.
    + destruct (l !! Z.to_nat (Z.of_nat (length l) + i)); congruence.
    + congruence.
Qed.

Lemma getitem_Ok_lookup {A} (l : list A) (i : Z) (x : A) :
  getitem l i = Ok x -> exists n, l !! n = Some x.
Proof.
  unfold getitem. destruct (index (length l) i) as [n|]; simpl; [|discriminate].
  destruct (l !! n) eqn:Hn; [|discriminate]. intros [= <-]. eauto.
Qed.

Section Grid.

Variable g : grid.
Hypothesis Hwf : wf_board g.

Lemma wf_row (n : nat) (r : list (option Piece)) :
  g !! n = Some r -> length r = 8%nat.
Proof. destruct Hwf as [_ Hrows]. intros Hr. exact (Forall_lookup_1 _ _ _ _ Hrows Hr). Qed.

(** Inside the board a read never raises. *)
Lemma board_get_in_bounds (row col : Z) :
  0 <= row < 8 -> 0 <= col < 8 -> exists c, board_get g row col = Ok c.
Proof.
  intros Hr Hc. destruct Hwf as [Hlen _]. unfold board_get.
  destruct (getitem_nonneg g row) as (r & Hlk & ->); [lia|]. simpl.
  pose proof (wf_row _ _ Hlk) as Hrl.
  destruct (getitem_nonneg r col) as (c & _ & ->); [lia|].
  eauto.
Qed.

(** A negative row in [-8..-1] reads row [8 + row]. *)
Lemma board_get_negative_row (row col : Z) :
  -8 <= row < 0 -> board_get g row col = board_get g (8 + row) col.
Proof.
  intros Hr. destruct Hwf as [Hlen _]. unfold board_get.
  rewrite getitem_negative by lia. rewrite Hlen. reflexivity.
Qed.

(** A negative column in [-8..-1] reads column [8 + col]. *)
Lemma board_get_negative_col (row col : Z) :
  -8 <= col < 0 -> board_get g row col = board_get g row (8 + col).
Proof.
  intros Hc. unfold board_get.
  destruct (getitem g row) as [r|e] eqn:Hg; simpl; [|reflexivity].
  assert (length r = 8%nat) as Hrl.
  { destruct (getitem_Ok_lookup _ _ _ Hg) as [n Hn]. eapply wf_row, Hn. }
  rewrite getitem_negative by lia. rewrite Hrl. reflexivity.
Qed.

(** A row or a column above 7 raises [IndexError], whatever the other
    component is. *)
Lemma board_get_above (row col : Z) :
  7 < row \/ 7 < col -> board_get g row col = Raise IndexError.
Proof.
  intros H. unfold board_get.
  destruct (getitem g row) as [r|e] eqn:Hg; simpl.
  - assert (length r = 8%nat) as Hrl.
    { destruct (getitem_Ok_lookup _ _ _ Hg) as [n Hn]. eapply wf_row, Hn. }
    destruct H as [H|H].
    + destruct Hwf as [Hlen _]. rewrite getitem_out_of_range in Hg by lia. discriminate.
    + apply getitem_out_of_range. lia.
  - f_equal. eapply getitem_IndexError_only, Hg.
Qed.

End Grid.

Lemma within_bounds_iff (row col : Z) :
  _is_within_bounds (row, col) = true <-> 0 <= row < 8 /\ 0 <= col < 8.
Proof. unfold _is_within_bounds. split; intros H; zbool; simpl in H; try discriminate; lia. Qed.

(** ** Sanity checks of the embedding on the starting position *)

Lemma ChessBoard_init_eq : ChessBoard_init = Ok initial_board.
Proof. vm_compute. reflexivity. Qed.

Lemma initial_board_wf : wf_board (board initial_board).
Proof. split; [reflexivity|]. repeat constructor. Qed.

(** ** The slope on the board: floating point against integer deltas *)

Lemma slope_translate (sr sc er ec : Z) :
  calculate_slope (sr, sc) (er, ec) = calculate_slope (0, 0) (er - sr, ec - sc).
Proof. unfold calculate_slope. rewrite !Z.sub_0_r. reflexivity. Qed.

Lemma slope_table_checked :
  forallb (fun dr => forallb (fun dc => slope_agrees dr dc) board_deltas) board_deltas = true.
Proof. vm_compute. reflexivity. Qed.

Lemma board_deltas_spec (d : Z) : -15 <= d <= 15 -> In d board_deltas.
Proof.
  intros H. unfold board_deltas. apply in_map_iff.
  exists (Z.to_nat (d + 15)). split; [lia|].
  apply in_seq. lia.
Qed.

(** For deltas between two indices the grid accepts, the division neither
    raises nor rounds a classification away. *)
Lemma slope_on_board (dr dc : Z) :
  -15 <= dr <= 15 -> -15 <= dc <= 15 ->
  exists slope,
    calculate_slope (0, 0) (dr, dc) = Ok slope /\
    feq_int slope 0 = (dr =? 0) && negb (dc =? 0) /\
    feq slope inf = (dc =? 0) /\
    feq_int (fabs slope) 1 = (Z.abs dr =? Z.abs dc) && negb (dc =? 0).
Proof.
  intros Hr Hc.
  pose proof slope_table_checked as T.
  rewrite forallb_forall in T. specialize (T dr (board_deltas_spec dr Hr)).
  rewrite forallb_forall in T. specialize (T dc (board_deltas_spec dc Hc)).
  unfold slope_agrees in T.
  destruct (calculate_slope (0, 0) (dr, dc)) as [slope|]; [|discriminate].
  exists slope. split; [reflexivity|].
  rewrite !andb_true_iff in T. destruct T as [[T1 T2] T3].
  apply eqb_prop in T1, T2, T3. auto.
Qed.

(** ** Failed legality check: [make_move] is a no-op *)

(** C1. Whenever [is_valid_move] returns [False] for a pair, [make_move] on
    that pair returns [False] and hands back the board it was given: every
    cell of the grid and [current_turn] are as before the call. *)
Theorem make_move_illegal_is_noop (self : ChessBoard) (start_pos end_pos : pos) :
  is_valid_move self start_pos end_pos = Ok false ->
  make_move start_pos end_pos self = (Ok false, self).
Proof. intros H. unfold make_move. rewrite H. reflexivity. Qed.

Lemma make_move_illegal_is_noop_witness :
  is_valid_move initial_board (0, 0) (3, 3) = Ok false /\
  make_move (0, 0) (3, 3) initial_board = (Ok false, initial_board).
Proof.
  split; [vm_compute; reflexivity|].
  apply (make_move_illegal_is_noop initial_board (0, 0) (3, 3)).
  vm_compute. reflexivity.
Defined.

(** ** Rook and bishop on the slope *)

(** C3, as stated, fails on the null move: for [start == end] the slope is
    the vertical sentinel and the rook predicate accepts it, although the
    move is neither pure horizontal nor pure vertical. *)
Lemma rook_accepts_null_move :
  exists slope,
    calculate_slope (3, 3) (3, 3) = Ok slope /\
    _is_valid_rook_move slope = true /\
    ~ (pure_horizontal (3, 3) (3, 3) \/ pure_vertical (3, 3) (3, 3)).
Proof.
  exists inf. split; [reflexivity|]. split; [reflexivity|].
  unfold pure_horizontal, pure_vertical. simpl. lia.
Qed.

(** C3, amended. For start and end components in [-8..7] the slope is
    computed without an exception and the rook predicate is true on it if and
    only if the row delta is 0 or the column delta is 0: pure horizontal,
    pure vertical, or the null move. *)
Theorem rook_iff_axis_aligned (sr sc er ec : Z) :
  -8 <= sr <= 7 -> -8 <= sc <= 7 -> -8 <= er <= 7 -> -8 <= ec <= 7 ->
  exists slope,
    calculate_slope (sr, sc) (er, ec) = Ok slope /\
    (_is_valid_rook_move slope = true <->
     pure_horizontal (sr, sc) (er, ec) \/ pure_vertical (sr, sc) (er, ec)
     \/ (sr, sc) = (er, ec)).
Proof.
  intros Hsr Hsc Her Hec. rewrite slope_translate.
  destruct (slope_on_board (er - sr) (ec - sc)) as (slope & Hs & H0 & Hinf & _); [lia..|].
  exists slope. split; [exact Hs|].
  unfold _is_valid_rook_move, pure_horizontal, pure_vertical. simpl.
  rewrite H0, Hinf, orb_true_iff, andb_true_iff, negb_true_iff.
  rewrite !Z.eqb_eq, Z.eqb_neq.
  split.
  - intros [[? ?]|?]; [left; lia|].
    destruct (Z.eq_dec (er - sr) 0); [|right; left; lia].
    right; right. f_equal; lia.
  - intros [[? ?]|[[? ?]|[= -> ->]]]; [left; lia| right; lia | right; lia].
Qed.

Lemma rook_iff_axis_aligned_witness :
  exists slope,
    calculate_slope (3, 3) (3, 7) = Ok slope /\
    (_is_valid_rook_move slope = true <->
     pure_horizontal (3, 3) (3, 7) \/ pure_vertical (3, 3) (3, 7)
     \/ (3, 3) = (3, 7)).
Proof. apply (rook_iff_axis_aligned 3 3 3 7); lia. Defined.

(** Outside the board the float test does round a classification away: a
    quotient below the smallest subnormal is [0.0], and the rook predicate
    takes a move that changes its row for a horizontal one. *)
Lemma rook_underflow :
  calculate_slope (0, 0) (1, 2 ^ 1080) = Ok (S754_zero false) /\
  _is_valid_rook_move (S754_zero false) = true.
Proof. split; vm_compute; reflexivity. Qed.

(** C4. For start and end components in [0..7] the slope is computed without
    an exception, and the bishop predicate's float test [abs(slope) == 1] on
    it decides exactly what the integer test [|drow| == |dcol|], both
    nonzero, decides. *)
Theorem bishop_float_matches_exact (sr sc er ec : Z) :
  0 <= sr <= 7 -> 0 <= sc <= 7 -> 0 <= er <= 7 -> 0 <= ec <= 7 ->
  exists slope,
    calculate_slope (sr, sc) (er, ec) = Ok slope /\
    _is_valid_bishop_move slope = bishop_exact (sr, sc) (er, ec).
Proof.
  intros Hsr Hsc Her Hec. rewrite slope_translate.
  destruct (slope_on_board (er - sr) (ec - sc)) as (slope & Hs & _ & _ & H1); [lia..|].
  exists slope. split; [exact Hs|].
  unfold _is_valid_bishop_move, bishop_exact. rewrite H1.
  destruct (Z.eqb_spec (Z.abs (er - sr)) (Z.abs (ec - sc))) as [Habs|]; [|reflexivity].
  destruct (Z.eqb_spec (ec - sc) 0), (Z.eqb_spec (er - sr) 0); simpl; try reflexivity; lia.
Qed.

Lemma bishop_float_matches_exact_witness :
  exists slope,
    calculate_slope (0, 0) (3, 3) = Ok slope /\
    _is_valid_bishop_move slope = bishop_exact (0, 0) (3, 3).
Proof. apply (bishop_float_matches_exact 0 0 3 3); lia. Defined.

(** ** The dispatch of [is_valid_move] *)

(** Past the three rejections, [is_valid_move] is the predicate of the
    mover's kind on the geometry of the pair. *)
Lemma is_valid_move_dispatch (self : ChessBoard) (start_pos end_pos : pos)
    (p : Piece) (t : option Piece) :
  _is_within_bounds end_pos = true ->
  board_get (board self) start_pos.1 start_pos.2 = Ok (Some p) ->
  board_get (board self) end_pos.1 end_pos.2 = Ok t ->
  (forall q, t = Some q -> color q <> color p) ->
  is_valid_move self start_pos end_pos =
    (slope <- calculate_slope start_pos end_pos ;;
     match piece_type p with
     | BISHOP => Ok (_is_valid_bishop_move slope)
     | ROOK => Ok (_is_valid_rook_move slope)
     | QUEEN => Ok (_is_valid_queen_move slope)
     | KNIGHT => Ok (_is_valid_knight_move start_pos end_pos)
     | KING => Ok (_is_valid_king_move slope (calculate_distance start_pos end_pos))
     | PAWN => _is_valid_pawn_move self start_pos end_pos (color p)
     end).
Proof.
  destruct start_pos as [sr sc], end_pos as [er ec]. cbn [fst snd].
  intros Hb Hs He Hc. unfold is_valid_move.
  rewrite Hb, Hs. simpl. rewrite He. simpl.
  destruct t as [q|]; [|reflexivity].
  rewrite bool_decide_eq_false_2 by (apply Hc; reflexivity). reflexivity.
Qed.

(** On a well-formed board the destination read succeeds, and the caller's
    colour condition is the one the dispatch needs. *)
Lemma destination_read (self : ChessBoard) (end_pos : pos) (p : Piece) :
  wf_board (board self) -> on_board end_pos -> not_own_piece self end_pos p ->
  _is_within_bounds end_pos = true /\
  exists t, board_get (board self) end_pos.1 end_pos.2 = Ok t /\
            (forall q, t = Some q -> color q <> color p).
Proof.
  intros Hwf [Hr Hc] Hown. split.
  - destruct end_pos. apply within_bounds_iff. auto.
  - destruct (board_get_in_bounds _ Hwf _ _ Hr Hc) as [t Ht].
    exists t. split; [exact Ht|]. intros q ->. apply Hown. exact Ht.
Qed.

(** ** King *)



(** On the board the geometry test of the king is implied by the distance
    test: every square at Chebyshev distance 1 lies on a queen line. *)
Lemma king_distance_suffices (sr sc er ec : Z) (slope : spec_float) :
  -8 <= sr <= 7 -> -8 <= sc <= 7 -> -8 <= er <= 7 -> -8 <= ec <= 7 ->
  calculate_slope (sr, sc) (er, ec) = Ok slope ->
  _is_valid_king_move slope (calculate_distance (sr, sc) (er, ec))
  = (Z.max (Z.abs (er - sr)) (Z.abs (ec - sc)) =? 1).
Proof.
  intros Hsr Hsc Her Hec Hs. rewrite slope_translate in Hs.
  destruct (slope_on_board (er - sr) (ec - sc)) as (s' & Hs' & H0 & Hinf & H1); [lia..|].
  rewrite Hs in Hs'. injection Hs' as <-.
  unfold _is_valid_king_move, calculate_distance. rewrite H0, Hinf, H1.
  destruct (Z.eqb_spec (Z.max (Z.abs (er - sr)) (Z.abs (ec - sc))) 1) as [Hd|Hd];
    [|apply andb_false_r].
  rewrite andb_true_r.
  destruct (Z.eqb_spec (ec - sc) 0), (Z.eqb_spec (er - sr) 0),
    (Z.eqb_spec (Z.abs (er - sr)) (Z.abs (ec - sc))); simpl; try reflexivity; lia.
Qed.

(** ** Pawn *)

Lemma load_global_piece : load_global "piece" = Raise NameError.
Proof. reflexivity. Qed.

(** In the same column, every row delta other than one step forward reaches
    the read of the unbound name. *)
Lemma pawn_same_column_raises (self : ChessBoard) (sr sc er : Z) (c : Color) :
  er - sr <> direction_of c ->
  _is_valid_pawn_move self (sr, sc) (er, sc) c = Raise NameError.
Proof.
  intros Hd. unfold _is_valid_pawn_move. fold (direction_of c).
  rewrite Z.eqb_refl.
  destruct (Z.eqb_spec (er - sr) (direction_of c)); [contradiction|].
  reflexivity.
Qed.

Lemma direction_of_cases (c : Color) : direction_of c = 1 \/ direction_of c = -1.
Proof. destruct c; [right|left]; reflexivity. Qed.

(** C5. For a pawn on an in-bounds start square, an in-bounds end square
    that holds no piece of the pawn's colour, and a destination row exactly
    one step forward: in the same column the move is legal if and only if the
    destination is empty, and one column aside it is legal if and only if the
    destination is occupied.  So a pawn neither captures straight ahead nor
    steps diagonally onto an empty square. *)
Theorem pawn_single_step (self : ChessBoard) (sr sc er ec : Z) (p : Piece) :
  wf_board (board self) ->
  on_board (sr, sc) -> on_board (er, ec) ->
  board_get (board self) sr sc = Ok (Some p) ->
  piece_type p = PAWN ->
  not_own_piece self (er, ec) p ->
  er = sr + direction_of (color p) ->
  (ec = sc ->
   exists v, is_valid_move self (sr, sc) (er, ec) = Ok v /\
             (v = true <-> board_get (board self) er ec = Ok None)) /\
  (Z.abs (ec - sc) = 1 ->
   exists v, is_valid_move self (sr, sc) (er, ec) = Ok v /\
             (v = true <-> exists q, board_get (board self) er ec = Ok (Some q))).
Proof.
  intros Hwf [Hsr Hsc] [Her Hec] Hs Hk Hown Hrow. cbn [fst snd] in *.
  destruct (destination_read self (er, ec) p Hwf) as (Hb & t & Ht & Hc);
    [split; assumption | exact Hown |].
  cbn [fst snd] in Ht.
  rewrite (is_valid_move_dispatch self (sr, sc) (er, ec) p t Hb Hs Ht Hc).
  rewrite Hk, slope_translate.
  destruct (slope_on_board (er - sr) (ec - sc)) as (slope & -> & _); [lia..|].
  cbn [bind]. unfold _is_valid_pawn_move. fold (direction_of (color p)).
  replace (er - sr) with (direction_of (color p)) by lia.
  rewrite Z.eqb_refl, andb_true_r, Ht. cbn [bind].
  split.
  - intros ->. rewrite Z.eqb_refl.
    exists (bool_decide (t = None)). split; [reflexivity|].
    rewrite bool_decide_eq_true. split; congruence.
  - intros Habs.
    destruct (Z.eqb_spec sc ec) as [->|_]; [lia|].
    destruct (Z.eqb_spec (Z.abs (ec - sc)) 1) as [_|]; [|contradiction].
    exists (negb (bool_decide (t = None))). split; [reflexivity|].
    rewrite negb_true_iff, bool_decide_eq_false.
    destruct t as [q|]; split; [eauto | congruence | congruence | intros [q [=]]].
Qed.

Lemma pawn_single_step_witness :
  (exists v, is_valid_move pawn_example (6, 3) (5, 3) = Ok v /\
             (v = true <-> board_get (board pawn_example) 5 3 = Ok None)) /\
  (exists v, is_valid_move pawn_example (6, 3) (5, 4) = Ok v /\
             (v = true <-> exists q, board_get (board pawn_example) 5 4 = Ok (Some q))).
Proof.
  split.
  - apply (pawn_single_step pawn_example 6 3 5 3 (new_piece PAWN WHITE));
      [ split; [reflexivity | repeat constructor]
      | unfold on_board; simpl; lia
      | unfold on_board; simpl; lia
      | reflexivity
      | reflexivity
      | intros q Hq; vm_compute in Hq; discriminate
      | reflexivity
      | reflexivity ].
  - apply (pawn_single_step pawn_example 6 3 5 4 (new_piece PAWN WHITE));
      [ split; [reflexivity | repeat constructor]
      | unfold on_board; simpl; lia
      | unfold on_board; simpl; lia
      | reflexivity
      | reflexivity
      | intros q Hq; vm_compute in Hq; discriminate
      | reflexivity
      | reflexivity ].
Defined.

(** C7. For a pawn and a same-column destination exactly two steps forward,
    the pawn predicate raises [NameError] on the unbound name [piece]
    instead of returning a boolean, and so [is_valid_move] never returns
    [True] for a two-square advance; with the destination on the board and
    free of the pawn's colour it raises [NameError] itself. *)
Theorem pawn_double_advance_raises (self : ChessBoard) (sr sc er ec : Z) (p : Piece) :
  board_get (board self) sr sc = Ok (Some p) ->
  piece_type p = PAWN ->
  ec = sc ->
  er = sr + 2 * direction_of (color p) ->
  _is_valid_pawn_move self (sr, sc) (er, ec) (color p) = Raise NameError /\
  is_valid_move self (sr, sc) (er, ec) <> Ok true /\
  (wf_board (board self) -> on_board (er, ec) -> not_own_piece self (er, ec) p ->
   is_valid_move self (sr, sc) (er, ec) = Raise NameError).
Proof.
  intros Hs Hk -> Hrow.
  assert (er - sr <> direction_of (color p)) as Hd
    by (destruct (direction_of_cases (color p)); lia).
  pose proof (pawn_same_column_raises self sr sc er (color p) Hd) as Hpawn.
  assert (calculate_slope (sr, sc) (er, sc) = Ok inf) as Hslope
    by (unfold calculate_slope; rewrite Z.sub_diag; reflexivity).
  split; [exact Hpawn|]. split.
  - unfold is_valid_move.
    destruct (_is_within_bounds (er, sc)); [|discriminate]. cbn [negb].
    rewrite Hs. cbn [bind].
    destruct (board_get (board self) er sc) as [[q|]|]; cbn [bind]; [| |discriminate].
    + destruct (bool_decide (color q = color p)); [discriminate|].
      rewrite Hslope, Hk. cbn [bind]. rewrite Hpawn. discriminate.
    + rewrite Hslope, Hk. cbn [bind]. rewrite Hpawn. discriminate.
  - intros Hwf Hon Hown.
    destruct (destination_read self (er, sc) p Hwf Hon Hown) as (Hb & t & Ht & Hc).
    rewrite (is_valid_move_dispatch self (sr, sc) (er, sc) p t Hb Hs Ht Hc).
    rewrite Hslope, Hk. exact Hpawn.
Qed.

Lemma pawn_double_advance_raises_witness :
  _is_valid_pawn_move pawn_example (6, 3) (4, 3) WHITE = Raise NameError /\
  is_valid_move pawn_example (6, 3) (4, 3) <> Ok true /\
  (wf_board (board pawn_example) -> on_board (4, 3) ->
   not_own_piece pawn_example (4, 3) (new_piece PAWN WHITE) ->
   is_valid_move pawn_example (6, 3) (4, 3) = Raise NameError).
Proof.
  apply (pawn_double_advance_raises pawn_example 6 3 4 3 (new_piece PAWN WHITE));
    reflexivity.
Defined.

(** C6, at the specification's own example: a white pawn on (6,3) that has
    not moved, with (5,3) and (4,3) empty.  The claim makes the advance to
    (4,3) legal; the code raises [NameError]. *)
Theorem pawn_example_double_advance :
  board_get (board pawn_example) 6 3 = Ok (Some (new_piece PAWN WHITE)) /\
  has_moved (new_piece PAWN WHITE) = false /\
  4 = 6 + 2 * direction_of WHITE /\
  board_get (board pawn_example) 5 3 = Ok None /\
  board_get (board pawn_example) 4 3 = Ok None /\
  is_valid_move pawn_example (6, 3) (4, 3) = Raise NameError.
Proof. repeat split; vm_compute; reflexivity. Qed.

(** ** Turn alternation *)

Lemma make_move_true_flips (start_pos end_pos : pos) (self self' : ChessBoard) :
  make_move start_pos end_pos self = (Ok true, self') ->
  current_turn self' = other_turn (current_turn self).
Proof.
  unfold make_move. destruct start_pos as [sr sc], end_pos as [er ec].
  destruct (is_valid_move self (sr, sc) (er, ec)) as [[|]|]; [|discriminate..].
  destruct (board_get (board self) sr sc) as [piece|]; [|discriminate].
  destruct (board_set (board self) er ec piece) as [g1|]; [|discriminate].
  destruct (board_set g1 sr sc None) as [g2|]; [|discriminate].
  destruct piece; [|discriminate].
  intros [= <-]. reflexivity.
Qed.

Lemma other_turn_involutive (c : Color) : other_turn (other_turn c) = c.
Proof. destruct c; reflexivity. Qed.

Lemma make_moves_turn (moves : list (pos * pos)) :
  forall self self',
    make_moves moves self = Some self' ->
    current_turn self' =
      if Nat.even (length moves) then current_turn self
      else other_turn (current_turn self).
Proof.
  induction moves as [|[start_pos end_pos] moves IH]; intros self self' H.
  - injection H as <-. reflexivity.
  - cbn [make_moves] in H.
    destruct (make_move start_pos end_pos self) as [[[|]|] self1] eqn:Hm;
      [|discriminate..].
    apply make_move_true_flips in Hm. apply IH in H. rewrite H, Hm.
    cbn [length]. rewrite Nat.even_succ, <- Nat.negb_even.
    destruct (Nat.even (length moves)); cbn [negb];
      [reflexivity | apply other_turn_involutive].
Qed.

(** C8. From the board the constructor returns, after any run of [N] calls
    of [make_move] that all return [True], [current_turn] is white for even
    [N] and black for odd [N]; the colour of the pieces moved plays no
    part. *)
Theorem turn_alternation (moves : list (pos * pos)) (fresh self' : ChessBoard) :
  ChessBoard_init = Ok fresh ->
  make_moves moves fresh = Some self' ->
  current_turn self' = if Nat.even (length moves) then WHITE else BLACK.
Proof.
  intros Hinit Hrun. rewrite ChessBoard_init_eq in Hinit. injection Hinit as <-.
  rewrite (make_moves_turn moves initial_board self' Hrun). reflexivity.
Qed.

Lemma turn_alternation_witness :
  exists self',
    make_moves two_white_moves initial_board = Some self' /\
    current_turn self' = if Nat.even (length two_white_moves) then WHITE else BLACK.
Proof.
  exists (default initial_board (make_moves two_white_moves initial_board)).
  assert (make_moves two_white_moves initial_board
          = Some (default initial_board (make_moves two_white_moves initial_board)))
    as Hrun by (vm_compute; reflexivity).
  split; [exact Hrun|].
  apply (turn_alternation two_white_moves initial_board _ ChessBoard_init_eq Hrun).
Defined.

(** ** The start coordinate is not bounds-checked *)

Lemma board_get_index_range (g : grid) (row col : Z) :
  wf_board g -> -8 <= row < 8 -> -8 <= col < 8 ->
  exists c, board_get g row col = Ok c.
Proof.
  intros Hwf Hr Hc.
  destruct (Z.lt_ge_cases row 0), (Z.lt_ge_cases col 0).
  - rewrite board_get_negative_row, board_get_negative_col by (assumption || lia).
    apply board_get_in_bounds; [assumption | lia..].
  - rewrite board_get_negative_row by (assumption || lia).
    apply board_get_in_bounds; [assumption | lia..].
  - rewrite board_get_negative_col by (assumption || lia).
    apply board_get_in_bounds; [assumption | lia..].
  - apply board_get_in_bounds; [assumption | lia..].
Qed.

Lemma pawn_no_IndexError (self : ChessBoard) (start_pos end_pos : pos) (c : Color) :
  wf_board (board self) -> on_board end_pos ->
  _is_valid_pawn_move self start_pos end_pos c <> Raise IndexError.
Proof.
  intros Hwf [Hr Hc]. destruct start_pos as [sr sc], end_pos as [er ec].
  cbn [fst snd] in *.
  destruct (board_get_in_bounds _ Hwf er ec Hr Hc) as [t Ht].
  unfold _is_valid_pawn_move. rewrite Ht. cbn [bind].
  repeat match goal with
         | |- context [if ?b then _ else _] => destruct b
         end; cbn [bind]; discriminate.
Qed.

(** C10. [is_valid_move] checks the end coordinate against the board and
    never the start.  An end off the board is answered [False] for every
    start.  With the end on the board: a start row or column above 7 raises
    [IndexError] instead of returning [False]; a start row or column in
    [-8..-1] reads the square at [8 + index] and the call goes on without an
    [IndexError]; and such calls do return [True], as two calls on the
    starting position show. *)
Theorem start_not_bounds_checked (self : ChessBoard) (end_pos : pos) :
  wf_board (board self) ->
  (~ on_board end_pos ->
   forall start_pos, is_valid_move self start_pos end_pos = Ok false) /\
  (on_board end_pos ->
   (forall sr sc, 7 < sr \/ 7 < sc ->
      is_valid_move self (sr, sc) end_pos = Raise IndexError) /\
   (forall sr sc, -8 <= sr < 0 ->
      board_get (board self) sr sc = board_get (board self) (8 + sr) sc) /\
   (forall sr sc, -8 <= sc < 0 ->
      board_get (board self) sr sc = board_get (board self) sr (8 + sc)) /\
   (forall sr sc, -8 <= sr < 8 -> -8 <= sc < 8 ->
      is_valid_move self (sr, sc) end_pos <> Raise IndexError)) /\
  is_valid_move initial_board (-8, 0) (2, 0) = Ok true /\
  is_valid_move initial_board (0, -6) (6, 0) = Ok true.
Proof.
  intros Hwf. split; [|split].
  - intros Hoff start_pos. unfold is_valid_move.
    destruct (_is_within_bounds end_pos) eqn:Hb; [|reflexivity].
    destruct end_pos as [er ec]. apply within_bounds_iff in Hb. contradiction.
  - intros Hon.
    assert (_is_within_bounds end_pos = true) as Hb
      by (destruct end_pos; apply within_bounds_iff; exact Hon).
    repeat apply conj.
    + intros sr sc Habove. unfold is_valid_move. rewrite Hb. cbn [negb].
      destruct end_pos as [er ec].
      rewrite (board_get_above _ Hwf sr sc Habove). reflexivity.
    + intros sr sc Hr. apply board_get_negative_row; assumption.
    + intros sr sc Hc. apply board_get_negative_col; assumption.
    + intros sr sc Hr Hc. unfold is_valid_move. rewrite Hb. cbn [negb].
      destruct end_pos as [er ec]. destruct Hon as [Her Hec]. cbn [fst snd] in *.
      destruct (board_get_index_range _ sr sc Hwf Hr Hc) as [[p|] ->]; cbn [bind];
        [|discriminate].
      destruct (board_get_in_bounds _ Hwf er ec Her Hec) as [t ->]. cbn [bind].
      destruct (match t with
                | Some t0 => bool_decide (color t0 = color p)
                | None => false
                end); [discriminate|].
      rewrite slope_translate.
      destruct (slope_on_board (er - sr) (ec - sc)) as (slope & -> & _); [lia..|].
      cbn [bind].
      destruct (piece_type p); try discriminate.
      apply pawn_no_IndexError; [assumption | split; assumption].
  - split; vm_compute; reflexivity.
Qed.

Lemma start_not_bounds_checked_witness :
  (forall start_pos, is_valid_move initial_board start_pos (8, 0) = Ok false) /\
  (forall start_pos, is_valid_move initial_board start_pos (0, -1) = Ok false) /\
  ((forall sr sc, 7 < sr \/ 7 < sc ->
      is_valid_move initial_board (sr, sc) (2, 0) = Raise IndexError) /\
   (forall sr sc, -8 <= sr < 0 ->
      board_get (board initial_board) sr sc = board_get (board initial_board) (8 + sr) sc) /\
   (forall sr sc, -8 <= sc < 0 ->
      board_get (board initial_board) sr sc = board_get (board initial_board) sr (8 + sc)) /\
   (forall sr sc, -8 <= sr < 8 -> -8 <= sc < 8 ->
      is_valid_move initial_board (sr, sc) (2, 0) <> Raise IndexError)).
Proof.
  split; [|split].
  - apply (proj1 (start_not_bounds_checked initial_board (8, 0) initial_board_wf)).
    unfold on_board; simpl; lia.
  - apply (proj1 (start_not_bounds_checked initial_board (0, -1) initial_board_wf)).
    unfold on_board; simpl; lia.
  - apply (proj1 (proj2 (start_not_bounds_checked initial_board (2, 0) initial_board_wf))).
    unfold on_board; simpl; lia.
Defined.


(** ** Path-obstruction check *)

(** The step the source computes with floor division is the sign of the
    delta. *)
Lemma step_is_sgn (a b : Z) :
  (if a =? b then 0 else (b - a) `div` Z.abs (b - a)) = Z.sgn (b - a).
Proof.
  destruct (Z.eqb_spec a b) as [->|Hne].
  - rewrite Z.sub_diag. reflexivity.
  - assert (b - a = Z.sgn (b - a) * Z.abs (b - a)) as Hd by lia.
    rewrite Hd at 1. apply Z.div_mul. lia.
Qed.

Section PathLoop.

Variable g : grid.
Variables sr sc dr dc d : Z.
Hypothesis Hwf : wf_board g.
Hypothesis Hstep : dr <> 0 \/ dc <> 0.
Hypothesis Hon : forall j, 0 < j < d -> 0 <= sr + j * dr < 8 /\ 0 <= sc + j * dc < 8.

(** Entered at the [k]-th square with [n] squares left before the end, the
    loop leaves within [n + 1] evaluations of its condition, with [True]
    exactly when the squares [k .. d-1] are all empty. *)
Lemma path_loop_scan (n : nat) :
  forall (k : Z) (fuel : nat),
    0 < k -> d = k + Z.of_nat n -> (n < fuel)%nat ->
    exists v,
      path_loop fuel g (sr + k * dr) (sc + k * dc) dr dc (sr + d * dr, sc + d * dc)
      = Some (Ok v) /\
      (v = true <-> forall j, k <= j < d -> board_get g (sr + j * dr) (sc + j * dc) = Ok None).
Proof.
  induction n as [|n IH]; intros k fuel Hk Hd Hfuel;
    (destruct fuel as [|fuel]; [lia|]); cbn [path_loop].
  - replace k with d by lia.
    rewrite bool_decide_eq_true_2 by reflexivity.
    exists true. split; [reflexivity|]. split; [intros _ j Hj; lia | reflexivity].
  - rewrite bool_decide_eq_false_2.
    2:{ intros [= H1 H2]. assert (k <> d) as Hne by lia.
        destruct Hstep; nia. }
    destruct (Hon k) as [Hr Hc]; [lia|].
    destruct (board_get_in_bounds g Hwf _ _ Hr Hc) as [[q|] Hcell]; rewrite Hcell.
    + exists false. split; [reflexivity|]. split; [discriminate|].
      intros Hall. specialize (Hall k). rewrite Hcell in Hall.
      discriminate Hall. lia.
    + replace (sr + k * dr + dr) with (sr + (k + 1) * dr) by lia.
      replace (sc + k * dc + dc) with (sc + (k + 1) * dc) by lia.
      destruct (IH (k + 1) fuel) as (v & Hv & Hiff); [lia..|].
      exists v. split; [exact Hv|]. rewrite Hiff. split.
      * intros Hall j Hj. destruct (Z.eq_dec j k) as [->|]; [exact Hcell|].
        apply Hall. lia.
      * intros Hall j Hj. apply Hall. lia.
Qed.

(** The loop stops at the first occupied square: [n + 1] evaluations of the
    condition reach the square [k + n] and return [False] there. *)
Lemma path_loop_stops (n : nat) :
  forall (k : Z) (fuel : nat) (q : Piece),
    0 < k -> k + Z.of_nat n < d -> (n < fuel)%nat ->
    (forall j, k <= j < k + Z.of_nat n -> board_get g (sr + j * dr) (sc + j * dc) = Ok None) ->
    board_get g (sr + (k + Z.of_nat n) * dr) (sc + (k + Z.of_nat n) * dc) = Ok (Some q) ->
    path_loop fuel g (sr + k * dr) (sc + k * dc) dr dc (sr + d * dr, sc + d * dc)
    = Some (Ok false).
Proof.
  induction n as [|n IH]; intros k fuel q Hk Hd Hfuel Hempty Hocc;
    (destruct fuel as [|fuel]; [lia|]); cbn [path_loop];
    (rewrite bool_decide_eq_false_2;
     [| intros [= H1 H2]; assert (k <> d) as Hne by lia; destruct Hstep; nia]).
  - replace (k + Z.of_nat 0) with k in Hocc by lia. rewrite Hocc. reflexivity.
  - rewrite (Hempty k) by lia.
    replace (sr + k * dr + dr) with (sr + (k + 1) * dr) by lia.
    replace (sc + k * dc + dc) with (sc + (k + 1) * dc) by lia.
    apply (IH (k + 1) fuel q); [lia..| |].
    + intros j Hj. apply Hempty. lia.
    + replace (k + 1 + Z.of_nat n) with (k + Z.of_nat (S n)) by lia. exact Hocc.
Qed.

End PathLoop.

Lemma pair_neq (a b c d : Z) : (a, b) <> (c, d) <-> a <> c \/ b <> d.
Proof.
  split.
  - intros H. destruct (Z.eq_dec a c) as [->|]; [|left; assumption].
    right. intros ->. apply H. reflexivity.
  - intros [H|H] [= ? ?]; contradiction.
Qed.

(** On a line of the three kinds, the squares strictly between the two ends
    are the squares the scan visits: the [j]-th, for [0 < j < distance]. *)
Lemma strictly_between_nth (start_pos end_pos p : pos) :
  colinear start_pos end_pos -> start_pos <> end_pos ->
  strictly_between start_pos end_pos p <->
  exists j, 0 < j < calculate_distance start_pos end_pos /\ p = nth_square start_pos end_pos j.
Proof.
  destruct start_pos as [sr sc], end_pos as [er ec], p as [pr pc].
  unfold colinear, strictly_between, nth_square, calculate_distance. cbn [fst snd].
  intros Hcol Hne. rewrite pair_neq in Hne. rewrite !pair_neq.
  split.
  - intros (Hs & He & Hcross & Hrow & Hcol').
    exists (Z.max (Z.abs (pr - sr)) (Z.abs (pc - sc))).
    destruct (Z.sgn_spec (er - sr)) as [[Ha ->]|[[Ha ->]|[Ha ->]]];
    destruct (Z.sgn_spec (ec - sc)) as [[Hb ->]|[[Hb ->]|[Hb ->]]];
      try (split; [nia | f_equal; nia]).
  - intros (j & Hj & [= -> ->]).
    destruct (Z.sgn_spec (er - sr)) as [[Ha ->]|[[Ha ->]|[Ha ->]]];
    destruct (Z.sgn_spec (ec - sc)) as [[Hb ->]|[[Hb ->]|[Hb ->]]];
      try (repeat apply conj; nia).
Qed.

(** Between two squares of the board on one line, the scan stays on the
    board and ends on the end square after [distance] steps. *)
Lemma line_facts (sr sc er ec : Z) :
  on_board (sr, sc) -> on_board (er, ec) ->
  colinear (sr, sc) (er, ec) -> (sr, sc) <> (er, ec) ->
  let d := calculate_distance (sr, sc) (er, ec) in
  let dr := Z.sgn (er - sr) in
  let dc := Z.sgn (ec - sc) in
  (dr <> 0 \/ dc <> 0) /\ 0 < d /\ er = sr + d * dr /\ ec = sc + d * dc /\
  (forall j, 0 < j < d -> 0 <= sr + j * dr < 8 /\ 0 <= sc + j * dc < 8).
Proof.
  unfold on_board, colinear, calculate_distance. cbn [fst snd].
  intros [Hsr Hsc] [Her Hec] Hcol Hne. rewrite pair_neq in Hne.
  destruct (Z.sgn_spec (er - sr)) as [[Ha ->]|[[Ha ->]|[Ha ->]]];
  destruct (Z.sgn_spec (ec - sc)) as [[Hb ->]|[[Hb ->]|[Hb ->]]];
    cbn zeta; repeat apply conj; try lia; intros j Hj; lia.
Qed.

(** C9. For two distinct squares of the board on one horizontal, vertical or
    diagonal line, [is_path_clear] terminates, within [distance] evaluations
    of its loop condition, and returns [True] if and only if every square
    strictly between the two is empty; and it returns [False] as soon as the
    scan meets an occupied square, without looking further. *)
Theorem path_clear_iff (self : ChessBoard) (start_pos end_pos : pos) :
  wf_board (board self) ->
  on_board start_pos -> on_board end_pos ->
  start_pos <> end_pos -> colinear start_pos end_pos ->
  (forall fuel,
     (Z.to_nat (calculate_distance start_pos end_pos) <= fuel)%nat ->
     exists v,
       is_path_clear fuel self start_pos end_pos = Some (Ok v) /\
       (v = true <->
        forall p, strictly_between start_pos end_pos p ->
                  board_get (board self) p.1 p.2 = Ok None)) /\
  (forall k q,
     0 < k < calculate_distance start_pos end_pos ->
     board_get (board self) (nth_square start_pos end_pos k).1
               (nth_square start_pos end_pos k).2 = Ok (Some q) ->
     (forall j, 0 < j < k ->
        board_get (board self) (nth_square start_pos end_pos j).1
                  (nth_square start_pos end_pos j).2 = Ok None) ->
     forall fuel, (Z.to_nat k <= fuel)%nat ->
       is_path_clear fuel self start_pos end_pos = Some (Ok false)).
Proof.
  intros Hwf Hs He Hne Hcol.
  pose proof (strictly_between_nth start_pos end_pos) as Hbetween.
  destruct start_pos as [sr sc], end_pos as [er ec].
  destruct (line_facts sr sc er ec Hs He Hcol Hne) as (Hstep & Hd & Her & Hec & Hon).
  unfold nth_square in *. cbn [fst snd] in *.
  set (d := calculate_distance (sr, sc) (er, ec)) in *.
  set (dr := Z.sgn (er - sr)) in *. set (dc := Z.sgn (ec - sc)) in *.
  assert (forall fuel,
            is_path_clear fuel self (sr, sc) (er, ec)
            = path_loop fuel (board self) (sr + 1 * dr) (sc + 1 * dc) dr dc
                        (sr + d * dr, sc + d * dc)) as Hloop.
  { intros fuel. unfold is_path_clear. rewrite !step_is_sgn. fold dr dc.
    rewrite <- Her, <- Hec, !Z.mul_1_l. reflexivity. }
  split.
  - intros fuel Hfuel. rewrite Hloop.
    destruct (path_loop_scan (board self) sr sc dr dc d Hwf Hstep Hon
                (Z.to_nat (d - 1)) 1 fuel) as (v & Hv & Hiff); [lia..|].
    exists v. split; [exact Hv|]. rewrite Hiff. split.
    + intros Hall p Hp. apply (Hbetween p Hcol Hne) in Hp as (j & Hj & ->).
      apply Hall. lia.
    + intros Hall j Hj.
      apply (Hall (sr + j * dr, sc + j * dc)).
      apply (Hbetween _ Hcol Hne). exists j. split; [lia | reflexivity].
  - intros k q Hk Hocc Hempty fuel Hfuel. rewrite Hloop.
    apply (path_loop_stops (board self) sr sc dr dc d Hstep (Z.to_nat (k - 1)) 1 fuel q);
      [lia..| |].
    + intros j Hj. apply Hempty. lia.
    + replace (1 + Z.of_nat (Z.to_nat (k - 1))) with k by lia. exact Hocc.
Qed.

Lemma path_clear_iff_witness :
  (forall fuel,
     (Z.to_nat (calculate_distance (1, 0)%Z (6, 0)%Z) <= fuel)%nat ->
     exists v,
       is_path_clear fuel initial_board (1, 0) (6, 0) = Some (Ok v) /\
       (v = true <->
        forall p, strictly_between (1, 0) (6, 0) p ->
                  board_get (board initial_board) p.1 p.2 = Ok None)) /\
  (forall k q,
     0 < k < calculate_distance (1, 0) (6, 0) ->
     board_get (board initial_board) (nth_square (1, 0) (6, 0) k).1
               (nth_square (1, 0) (6, 0) k).2 = Ok (Some q) ->
     (forall j, 0 < j < k ->
        board_get (board initial_board) (nth_square (1, 0) (6, 0) j).1
                  (nth_square (1, 0) (6, 0) j).2 = Ok None) ->
     forall fuel, (Z.to_nat k <= fuel)%nat ->
       is_path_clear fuel initial_board (1, 0) (6, 0) = Some (Ok false)).
Proof.
  apply (path_clear_iff initial_board (1, 0) (6, 0)).
  - exact initial_board_wf.
  - unfold on_board; simpl; lia.
  - unfold on_board; simpl; lia.
  - discriminate.
  - unfold colinear; simpl; lia.
Defined.

(** ** The embedding on the examples of the specification *)

Example path_clear_open_file :
  is_path_clear 5 initial_board (1, 0) (6, 0) = Some (Ok true).
Proof. vm_compute. reflexivity. Qed.

Example path_blocked_at_first_square :
  is_path_clear 1 initial_board (0, 0) (7, 0) = Some (Ok false).
Proof. vm_compute. reflexivity. Qed.

(** Off a line the scan never meets the end square: it stops at the first
    piece in its way, or leaves the grid. *)
Example path_off_line :
  is_path_clear 9 initial_board (2, 0) (3, 2) = Some (Ok false) /\
  is_path_clear 9 pawn_example (2, 0) (3, 2) = Some (Raise IndexError).
Proof. split; vm_compute; reflexivity. Qed.

Example knight_L_shape :
  is_valid_move initial_board (0, 1) (2, 2) = Ok true /\
  is_valid_move initial_board (0, 1) (2, 3) = Ok false.
Proof. split; vm_compute; reflexivity. Qed.

Example bishop_diagonal :
  is_valid_move (mkBoard (lone_piece 0 0 (new_piece BISHOP WHITE)) WHITE) (0, 0) (3, 3) = Ok true /\
  is_valid_move (mkBoard (lone_piece 0 0 (new_piece BISHOP WHITE)) WHITE) (0, 0) (3, 4) = Ok false.
Proof. split; vm_compute; reflexivity. Qed.

Example rook_rank :
  is_valid_move (mkBoard (lone_piece 3 3 (new_piece ROOK WHITE)) WHITE) (3, 3) (3, 7) = Ok true /\
  is_valid_move (mkBoard (lone_piece 3 3 (new_piece ROOK WHITE)) WHITE) (3, 3) (6, 6) = Ok false.
Proof. split; vm_compute; reflexivity. Qed.

Example king_one_square :
  is_valid_move (mkBoard (lone_piece 4 4 (new_piece KING WHITE)) WHITE) (4, 4) (5, 5) = Ok true /\
  is_valid_move (mkBoard (lone_piece 4 4 (new_piece KING WHITE)) WHITE) (4, 4) (6, 6) = Ok false.
Proof. split; vm_compute; reflexivity. Qed.

Example out_of_bounds_end : is_valid_move initial_board (0, 1) (8, 1) = Ok false.
Proof. vm_compute. reflexivity. Qed.

(** A sliding piece is not stopped by the pieces in its way: the dispatch
    never calls [is_path_clear]. *)
Example rook_jumps_over_pawn :
  is_valid_move initial_board (0, 0) (6, 0) = Ok true /\
  is_path_clear 6 initial_board (0, 0) (6, 0) = Some (Ok false).
Proof. split; vm_compute; reflexivity. Qed.

(** From the starting position no pawn has a legal single step: white's
    direction is [-1] and its pawns stand on row 1, in front of row 0. *)
Example initial_pawn_blocked :
  is_valid_move initial_board (1, 3) (0, 3) = Ok false /\
  is_valid_move initial_board (1, 3) (2, 3) = Raise NameError.
Proof. split; vm_compute; reflexivity. Qed.

(** ** Reads and writes of the grid, by list position *)

Lemma index_norm (i : Z) : -8 <= i < 8 -> index 8 i = Ok (norm_index i).
Proof.
  intros H. unfold norm_index. destruct (Z.lt_ge_cases i 0).
  - rewrite index_negative by lia. do 2 f_equal.
    rewrite <- (Z.mod_add i 1 8) by lia. rewrite Z.mod_small; lia.
  - rewrite index_nonneg by lia. rewrite Z.mod_small; [reflexivity | lia].
Qed.

Lemma norm_index_lt (i : Z) : (norm_index i < 8)%nat.
Proof. unfold norm_index. pose proof (Z.mod_pos_bound i 8). lia. Qed.

Lemma norm_index_on_board (i : Z) : 0 <= i < 8 -> norm_index i = Z.to_nat i.
Proof. intros H. unfold norm_index. rewrite Z.mod_small; [reflexivity | lia]. Qed.

Lemma index_Ok_range (len : nat) (i : Z) (n : nat) :
  index len i = Ok n -> - Z.of_nat len <= i < Z.of_nat len.
Proof.
  unfold index.
  destruct (Z.leb_spec0 0 i), (Z.ltb_spec0 i (Z.of_nat len)); cbn [andb];
    try (intros _; lia);
    destruct (Z.leb_spec0 (- Z.of_nat len) i), (Z.ltb_spec0 i 0); cbn [andb];
    try discriminate; intros _; lia.
Qed.

Section GridCells.

Variable g : list (list (option Piece)).
Hypothesis Hwf : wf_board g.

Lemma grid_lookup_is_Some (r c : nat) :
  (r < 8)%nat -> (c < 8)%nat -> exists x, grid_lookup g r c = Some x.
Proof.
  intros Hr Hc. destruct Hwf as [Hlen _]. unfold grid_lookup.
  destruct (lookup_lt_is_Some_2 g r) as [row Hrow]; [lia|].
  rewrite Hrow. cbn.
  apply lookup_lt_is_Some_2. rewrite (wf_row g Hwf r row Hrow). exact Hc.
Qed.

(** A read at indices the grid accepts is the lookup at the resolved
    positions. *)
Lemma board_get_norm (row col : Z) :
  -8 <= row < 8 -> -8 <= col < 8 ->
  exists x, grid_lookup g (norm_index row) (norm_index col) = Some x /\
            board_get g row col = Ok x.
Proof.
  intros Hr Hc. destruct Hwf as [Hlen _].
  destruct (grid_lookup_is_Some (norm_index row) (norm_index col)
              (norm_index_lt row) (norm_index_lt col)) as [x Hx].
  exists x. split; [exact Hx|].
  unfold grid_lookup in Hx. unfold board_get, getitem.
  rewrite Hlen, index_norm by exact Hr. cbn [bind].
  destruct (g !! norm_index row) as [r|] eqn:Hrow; [|discriminate]. cbn in Hx.
  cbn [bind]. rewrite (wf_row g Hwf _ r Hrow), index_norm by exact Hc. cbn [bind].
  rewrite Hx. reflexivity.
Qed.

(** A read that succeeds was made at indices the grid accepts. *)
Lemma board_get_Ok_range (row col : Z) (x : option Piece) :
  board_get g row col = Ok x -> -8 <= row < 8 /\ -8 <= col < 8.
Proof.
  destruct Hwf as [Hlen _]. unfold board_get, getitem. rewrite Hlen.
  destruct (index 8 row) as [n|] eqn:Hn; cbn [bind]; [|discriminate].
  apply index_Ok_range in Hn.
  destruct (g !! n) as [r|] eqn:Hrow; cbn [bind]; [|discriminate].
  rewrite (wf_row g Hwf _ r Hrow).
  destruct (index 8 col) as [m|] eqn:Hm; cbn [bind]; [|discriminate].
  apply index_Ok_range in Hm. intros _. lia.
Qed.

(** A write at indices the grid accepts replaces the cell at the resolved
    positions. *)
Lemma board_set_norm (row col : Z) (v : option Piece) :
  -8 <= row < 8 -> -8 <= col < 8 ->
  board_set g row col v = Ok (grid_insert (norm_index row) (norm_index col) v g).
Proof.
  intros Hr Hc. destruct Hwf as [Hlen _].
  destruct (lookup_lt_is_Some_2 g (norm_index row)) as [r Hrow];
    [pose proof (norm_index_lt row); lia|].
  unfold board_set, getitem, setitem.
  rewrite Hlen, index_norm by exact Hr. cbn [bind]. rewrite Hrow. cbn [bind].
  rewrite (wf_row g Hwf _ r Hrow), index_norm by exact Hc. cbn [bind].
  f_equal. unfold grid_insert.
  apply list_eq. intros n.
  destruct (decide (n = norm_index row)) as [->|Hne].
  - rewrite list_lookup_insert_eq, list_lookup_alter_eq, Hrow;
      [reflexivity | pose proof (norm_index_lt row); lia].
  - rewrite list_lookup_insert_ne, list_lookup_alter_ne by congruence. reflexivity.
Qed.

Lemma grid_insert_wf (r c : nat) (v : option Piece) : wf_board (grid_insert r c v g).
Proof.
  destruct Hwf as [Hlen Hrows]. unfold grid_insert. split.
  - rewrite length_alter. exact Hlen.
  - apply Forall_lookup_2. intros n row Hn.
    destruct (decide (n = r)) as [->|Hne].
    + rewrite list_lookup_alter_eq in Hn.
      destruct (g !! r) as [row0|] eqn:Hrow; [|discriminate].
      injection Hn as <-. rewrite length_insert. eapply wf_row; eassumption.
    + rewrite list_lookup_alter_ne in Hn by congruence. eapply wf_row; eassumption.
Qed.

Lemma grid_lookup_insert_eq (r c : nat) (v : option Piece) :
  (r < 8)%nat -> (c < 8)%nat -> grid_lookup (grid_insert r c v g) r c = Some v.
Proof.
  intros Hr Hc. destruct Hwf as [Hlen _]. unfold grid_lookup, grid_insert.
  rewrite list_lookup_alter_eq.
  destruct (lookup_lt_is_Some_2 g r) as [row Hrow]; [lia|].
  rewrite Hrow. cbn. apply list_lookup_insert_eq.
  rewrite (wf_row g Hwf r row Hrow). exact Hc.
Qed.

Lemma grid_lookup_insert_ne (r c r' c' : nat) (v : option Piece) :
  (r, c) <> (r', c') ->
  grid_lookup (grid_insert r c v g) r' c' = grid_lookup g r' c'.
Proof.
  intros Hne. unfold grid_lookup, grid_insert.
  destruct (decide (r = r')) as [<-|Hr].
  - rewrite list_lookup_alter_eq. destruct (g !! r) as [row|]; [|reflexivity].
    cbn. apply list_lookup_insert_ne. congruence.
  - rewrite list_lookup_alter_ne by exact Hr. reflexivity.
Qed.

End GridCells.

(** ** What a successful [make_move] does to the board *)

(** A [True] from [is_valid_move] tells what it read. *)
Lemma is_valid_move_true_inv (self : ChessBoard) (sr sc er ec : Z) :
  is_valid_move self (sr, sc) (er, ec) = Ok true ->
  _is_within_bounds (er, ec) = true /\
  exists p t,
    board_get (board self) sr sc = Ok (Some p) /\
    board_get (board self) er ec = Ok t /\
    (forall q, t = Some q -> color q <> color p).
Proof.
  unfold is_valid_move.
  destruct (_is_within_bounds (er, ec)); cbn [negb]; [|discriminate].
  destruct (board_get (board self) sr sc) as [[p|]|]; cbn [bind]; [|discriminate..].
  destruct (board_get (board self) er ec) as [t|]; cbn [bind]; [|discriminate].
  intros H. split; [reflexivity|]. exists p, t. repeat split.
  intros q ->. intros Hcol. rewrite bool_decide_eq_true_2 in H by exact Hcol.
  discriminate.
Qed.

Lemma norm_index_wrapped (i : Z) : Z.of_nat (norm_index i) = i `mod` 8.
Proof. unfold norm_index. pose proof (Z.mod_pos_bound i 8). lia. Qed.

(** The board a successful call leaves, cell by cell of the three writes. *)
Lemma make_move_effect (self : ChessBoard) (sr sc er ec : Z) :
  wf_board (board self) ->
  is_valid_move self (sr, sc) (er, ec) = Ok true ->
  exists p t,
    board_get (board self) sr sc = Ok (Some p) /\
    board_get (board self) er ec = Ok t /\
    (forall q, t = Some q -> color q <> color p) /\
    (norm_index sr, norm_index sc) <> (norm_index er, norm_index ec) /\
    indexable (sr, sc) /\ on_board (er, ec) /\
    make_move (sr, sc) (er, ec) self =
      (Ok true,
       mkBoard
         (grid_insert (norm_index er) (norm_index ec) (Some (set_has_moved p))
            (grid_insert (norm_index sr) (norm_index sc) None
               (grid_insert (norm_index er) (norm_index ec) (Some p) (board self))))
         (other_turn (current_turn self))).
Proof.
  intros Hwf Hvalid.
  destruct (is_valid_move_true_inv self sr sc er ec Hvalid) as (Hb & p & t & Hs & He & Hc).
  apply within_bounds_iff in Hb. destruct Hb as [Her Hec].
  destruct (board_get_Ok_range _ Hwf sr sc _ Hs) as [Hsr Hsc].
  assert (-8 <= er < 8 /\ -8 <= ec < 8) as [Her' Hec'] by lia.
  assert ((norm_index sr, norm_index sc) <> (norm_index er, norm_index ec)) as Hne.
  { intros [= Hr Hcl].
    destruct (board_get_norm _ Hwf sr sc Hsr Hsc) as (x & Hx & Hgx).
    destruct (board_get_norm _ Hwf er ec Her' Hec') as (y & Hy & Hgy).
    rewrite Hr, Hcl, Hy in Hx. rewrite Hs in Hgx. rewrite He in Hgy.
    injection Hx as <-. injection Hgx as <-. injection Hgy as ->.
    exact (Hc p eq_refl eq_refl). }
  exists p, t. repeat (split; [assumption || (split; assumption)|]).
  unfold make_move. rewrite Hvalid, Hs.
  rewrite (board_set_norm _ Hwf er ec (Some p) Her' Hec').
  set (g1 := grid_insert (norm_index er) (norm_index ec) (Some p) (board self)).
  assert (wf_board g1) as Hwf1 by (apply grid_insert_wf; exact Hwf).
  rewrite (board_set_norm _ Hwf1 sr sc None Hsr Hsc).
  set (g2 := grid_insert (norm_index sr) (norm_index sc) None g1).
  assert (wf_board g2) as Hwf2 by (apply grid_insert_wf; exact Hwf1).
  unfold mark_moved.
  destruct (board_get_norm _ Hwf2 er ec Her' Hec') as (y & Hy & ->).
  unfold g2 in Hy. rewrite grid_lookup_insert_ne in Hy by exact Hne.
  unfold g1 in Hy.
  rewrite (grid_lookup_insert_eq _ Hwf) in Hy
    by (apply norm_index_lt). injection Hy as <-.
  rewrite (board_set_norm _ Hwf2 er ec _ Her' Hec').
  reflexivity.
Qed.

Lemma board_get_via_lookup (g : list (list (option Piece))) (row col : Z)
    (x : option Piece) :
  wf_board g -> -8 <= row < 8 -> -8 <= col < 8 ->
  grid_lookup g (norm_index row) (norm_index col) = Some x ->
  board_get g row col = Ok x.
Proof.
  intros Hwf Hr Hc Hx.
  destruct (board_get_norm g Hwf row col Hr Hc) as (y & Hy & ->). congruence.
Qed.

Lemma norm_index_inj_on_board (i j : Z) :
  0 <= i < 8 -> norm_index i = norm_index j -> i = j `mod` 8.
Proof.
  intros Hi H. rewrite <- (norm_index_wrapped j), <- H, norm_index_wrapped.
  rewrite Z.mod_small; lia.
Qed.

Lemma sum_list_with_alter {A} (W : A -> nat) (h : A -> A) (l : list A) :
  forall (i : nat) (a : A),
    l !! i = Some a ->
    (sum_list_with W (alter h i l) + W a = sum_list_with W l + W (h a))%nat.
Proof.
  induction l as [|y l IH]; intros [|i] a Hl; try discriminate; simpl in *.
  - injection Hl as ->. clear IH. lia.
  - specialize (IH i a Hl). unfold alter in IH. lia.
Qed.

Lemma sum_list_with_insert {A} (w : A -> nat) (l : list A) :
  forall (i : nat) (x old : A),
    l !! i = Some old ->
    (sum_list_with w (<[i := x]> l) + w old = sum_list_with w l + w x)%nat.
Proof.
  induction l as [|y l IH]; intros [|i] x old Hl; try discriminate; simpl in *.
  - injection Hl as ->. clear IH. lia.
  - specialize (IH i x old Hl). lia.
Qed.

(** Replacing one cell changes the weight of the grid by the difference of
    the two cells. *)
Lemma weigh_insert (w : option Piece -> nat) (g : list (list (option Piece)))
    (r c : nat) (v old : option Piece) :
  grid_lookup g r c = Some old ->
  (weigh w (grid_insert r c v g) + w old = weigh w g + w v)%nat.
Proof.
  unfold grid_lookup, weigh, grid_insert.
  destruct (g !! r) as [row|] eqn:Hrow; [|discriminate]. intros Hc.
  pose proof (sum_list_with_alter (sum_list_with w) (fun row => <[c := v]> row)
                g r row Hrow) as H1.
  pose proof (sum_list_with_insert w row c v old Hc) as H2.
  cbn beta in H1. lia.
Qed.

Lemma make_move_true_valid (start_pos end_pos : pos) (self self' : ChessBoard) :
  make_move start_pos end_pos self = (Ok true, self') ->
  is_valid_move self start_pos end_pos = Ok true.
Proof.
  unfold make_move.
  destruct (is_valid_move self start_pos end_pos) as [[|]|]; [reflexivity|..];
    destruct start_pos, end_pos; discriminate.
Qed.

(** Whatever a call returns or raises, it returns the verdict of
    [is_valid_move], and anything but [True] leaves the board as it was. *)
Lemma make_move_cases (self : ChessBoard) (start_pos end_pos : pos) :
  wf_board (board self) ->
  (make_move start_pos end_pos self).1 = is_valid_move self start_pos end_pos /\
  (is_valid_move self start_pos end_pos <> Ok true ->
   (make_move start_pos end_pos self).2 = self).
Proof.
  intros Hwf. destruct start_pos as [sr sc], end_pos as [er ec].
  destruct (is_valid_move self (sr, sc) (er, ec)) as [[|]|e] eqn:Hv.
  - destruct (make_move_effect self sr sc er ec Hwf Hv)
      as (p & t & _ & _ & _ & _ & _ & _ & ->).
    split; [reflexivity | congruence].
  - unfold make_move. rewrite Hv. split; reflexivity.
  - unfold make_move. rewrite Hv. split; reflexivity.
Qed.

Lemma make_move_wf (self : ChessBoard) (start_pos end_pos : pos) :
  wf_board (board self) -> wf_board (board (make_move start_pos end_pos self).2).
Proof.
  intros Hwf. destruct start_pos as [sr sc], end_pos as [er ec].
  destruct (is_valid_move self (sr, sc) (er, ec)) as [[|]|e] eqn:Hv.
  - destruct (make_move_effect self sr sc er ec Hwf Hv)
      as (p & t & _ & _ & _ & _ & _ & _ & ->).
    cbn [snd board]. repeat apply grid_insert_wf. exact Hwf.
  - unfold make_move. rewrite Hv. exact Hwf.
  - unfold make_move. rewrite Hv. exact Hwf.
Qed.

(** X1. A successful [make_move] relocates the piece and nothing else. *)
Theorem make_move_relocates (self : ChessBoard) (sr sc er ec : Z) :
  wf_board (board self) ->
  is_valid_move self (sr, sc) (er, ec) = Ok true ->
  exists p self',
    board_get (board self) sr sc = Ok (Some p) /\
    make_move (sr, sc) (er, ec) self = (Ok true, self') /\
    wf_board (board self') /\
    current_turn self' = other_turn (current_turn self) /\
    board_get (board self') er ec = Ok (Some (set_has_moved p)) /\
    board_get (board self') sr sc = Ok None /\
    (forall r c,
       on_board (r, c) -> (r, c) <> wrapped (sr, sc) -> (r, c) <> (er, ec) ->
       board_get (board self') r c = board_get (board self) r c).
Proof.
  intros Hwf Hv.
  destruct (make_move_effect self sr sc er ec Hwf Hv)
    as (p & t & Hs & He & Hc & Hne & [Hsr Hsc] & [Her Hec] & Hm).
  cbn [fst snd] in *.
  set (g1 := grid_insert (norm_index er) (norm_index ec) (Some p) (board self)) in *.
  set (g2 := grid_insert (norm_index sr) (norm_index sc) None g1) in *.
  set (g3 := grid_insert (norm_index er) (norm_index ec) (Some (set_has_moved p)) g2) in *.
  assert (wf_board g1) as Hwf1 by (apply grid_insert_wf; exact Hwf).
  assert (wf_board g2) as Hwf2 by (apply grid_insert_wf; exact Hwf1).
  assert (wf_board g3) as Hwf3 by (apply grid_insert_wf; exact Hwf2).
  exists p, (mkBoard g3 (other_turn (current_turn self))).
  cbn [board current_turn].
  repeat (split; [first [assumption | reflexivity]|]).
  split; [|split].
  - apply board_get_via_lookup; [assumption | lia | lia |].
    apply (grid_lookup_insert_eq g2 Hwf2); apply norm_index_lt.
  - apply board_get_via_lookup; [assumption..|].
    unfold g3. rewrite grid_lookup_insert_ne by congruence.
    apply (grid_lookup_insert_eq g1 Hwf1); apply norm_index_lt.
  - intros r c [Hr Hcl] Hns Hne'. cbn [fst snd] in *. unfold wrapped in Hns.
    cbn [fst snd] in Hns.
    destruct (board_get_norm _ Hwf r c) as (x & Hx & ->); [lia..|].
    apply board_get_via_lookup; [assumption | lia | lia |].
    assert ((norm_index er, norm_index ec) <> (norm_index r, norm_index c)) as N1.
    { intros [= H1 H2]. symmetry in H1, H2.
      apply norm_index_inj_on_board in H1, H2; [|lia..].
      rewrite Z.mod_small in H1, H2 by lia. congruence. }
    assert ((norm_index sr, norm_index sc) <> (norm_index r, norm_index c)) as N2.
    { intros [= H1 H2]. symmetry in H1, H2.
      apply norm_index_inj_on_board in H1, H2; [|lia..]. congruence. }
    unfold g3, g2, g1. rewrite !grid_lookup_insert_ne by assumption. exact Hx.
Qed.

Lemma make_move_relocates_witness :
  exists p self',
    board_get (board initial_board) 0 1 = Ok (Some p) /\
    make_move (0, 1) (2, 2) initial_board = (Ok true, self') /\
    wf_board (board self') /\
    current_turn self' = other_turn (current_turn initial_board) /\
    board_get (board self') 2 2 = Ok (Some (set_has_moved p)) /\
    board_get (board self') 0 1 = Ok None /\
    (forall r c,
       on_board (r, c) -> (r, c) <> wrapped (0, 1) -> (r, c) <> (2, 2) ->
       board_get (board self') r c = board_get (board initial_board) r c).
Proof.
  apply (make_move_relocates initial_board 0 1 2 2).
  - exact initial_board_wf.
  - vm_compute. reflexivity.
Defined.

(** X2. [make_move] returns what [is_valid_move] returns or raises, and
    leaves the board untouched unless that is [True]. *)
Theorem make_move_verdict (self : ChessBoard) (start_pos end_pos : pos) :
  wf_board (board self) ->
  (make_move start_pos end_pos self).1 = is_valid_move self start_pos end_pos /\
  (is_valid_move self start_pos end_pos <> Ok true ->
   (make_move start_pos end_pos self).2 = self).
Proof. exact (make_move_cases self start_pos end_pos). Qed.

Lemma make_move_verdict_witness :
  (make_move (8, 0) (2, 0) initial_board).1 = is_valid_move initial_board (8, 0) (2, 0) /\
  (is_valid_move initial_board (8, 0) (2, 0) <> Ok true ->
   (make_move (8, 0) (2, 0) initial_board).2 = initial_board).
Proof. apply (make_move_verdict initial_board (8, 0) (2, 0)). exact initial_board_wf. Defined.

(** X3. Every board reached from the constructor by calls of [make_move],
    whatever they return or raise, has 8 rows of 8 cells. *)
Theorem run_calls_wf (moves : list (pos * pos)) (fresh : ChessBoard) :
  ChessBoard_init = Ok fresh -> wf_board (board (run_calls moves fresh)).
Proof.
  intros Hinit. rewrite ChessBoard_init_eq in Hinit. injection Hinit as <-.
  pose proof initial_board_wf as Hwf. revert Hwf.
  generalize initial_board. induction moves as [|[s e] moves IH]; intros self Hwf.
  - exact Hwf.
  - cbn [run_calls]. apply IH. apply make_move_wf. exact Hwf.
Qed.

Lemma run_calls_wf_witness :
  wf_board (board (run_calls [((0, 1), (2, 2)); ((9, 9), (0, 0))] initial_board)).
Proof. apply (run_calls_wf _ initial_board). exact ChessBoard_init_eq. Defined.

(** ** Pieces are relocated or captured, never created *)

Lemma grid_lookup_of_get (g : list (list (option Piece))) (row col : Z)
    (x : option Piece) :
  wf_board g -> board_get g row col = Ok x ->
  grid_lookup g (norm_index row) (norm_index col) = Some x.
Proof.
  intros Hwf Hg. destruct (board_get_Ok_range g Hwf row col x Hg) as [Hr Hc].
  destruct (board_get_norm g Hwf row col Hr Hc) as (y & Hy & Hgy). congruence.
Qed.

(** For a weight that ignores empty cells and the moved flag, a successful
    call lowers the weight of the grid by the weight of the captured cell. *)
Lemma make_move_weight (w : option Piece -> nat) (self : ChessBoard)
    (sr sc er ec : Z) :
  w None = 0%nat ->
  (forall p, w (Some (set_has_moved p)) = w (Some p)) ->
  wf_board (board self) ->
  is_valid_move self (sr, sc) (er, ec) = Ok true ->
  exists p t,
    board_get (board self) sr sc = Ok (Some p) /\
    board_get (board self) er ec = Ok t /\
    (forall q, t = Some q -> color q <> color p) /\
    (weigh w (board (make_move (sr, sc) (er, ec) self).2) + w t
     = weigh w (board self))%nat.
Proof.
  intros Hnone Hflag Hwf Hv.
  destruct (make_move_effect self sr sc er ec Hwf Hv)
    as (p & t & Hs & He & Hc & Hne & _ & _ & ->).
  exists p, t. repeat (split; [assumption|]). cbn [snd board].
  set (g1 := grid_insert (norm_index er) (norm_index ec) (Some p) (board self)).
  set (g2 := grid_insert (norm_index sr) (norm_index sc) None g1).
  pose proof (weigh_insert w (board self) _ _ (Some p) t
                (grid_lookup_of_get _ _ _ _ Hwf He)) as W1. fold g1 in W1.
  assert (grid_lookup g1 (norm_index sr) (norm_index sc) = Some (Some p)) as L1.
  { unfold g1. rewrite grid_lookup_insert_ne by congruence.
    apply grid_lookup_of_get; assumption. }
  pose proof (weigh_insert w g1 _ _ None (Some p) L1) as W2. fold g2 in W2.
  assert (grid_lookup g2 (norm_index er) (norm_index ec) = Some (Some p)) as L2.
  { unfold g2. rewrite grid_lookup_insert_ne by exact Hne.
    apply (grid_lookup_insert_eq _ Hwf); apply norm_index_lt. }
  pose proof (weigh_insert w g2 _ _ (Some (set_has_moved p)) (Some p) L2) as W3.
  rewrite Hflag in W3. lia.
Qed.

(** No call of [make_move] raises the number of pieces of a colour. *)
Lemma make_move_count_color_le (c : Color) (self : ChessBoard) (start_pos end_pos : pos) :
  wf_board (board self) ->
  (count_color c (board (make_move start_pos end_pos self).2)
   <= count_color c (board self))%nat.
Proof.
  intros Hwf. destruct start_pos as [sr sc], end_pos as [er ec].
  assert (is_valid_move self (sr, sc) (er, ec) = Ok true
          \/ is_valid_move self (sr, sc) (er, ec) <> Ok true) as [Hv|Hv]
    by (destruct (is_valid_move self (sr, sc) (er, ec)) as [[|]|];
        [left; reflexivity | right; discriminate..]).
  - destruct (make_move_weight (color_weight c) self sr sc er ec
                eq_refl (fun p => eq_refl) Hwf Hv)
      as (p & t & _ & _ & _ & Hw).
    unfold weigh in Hw. unfold count_color. rewrite <- Hw. lia.
  - rewrite (proj2 (make_move_cases self (sr, sc) (er, ec) Hwf) Hv). lia.
Qed.

(** X4. A successful move keeps every piece except the one captured. *)
Theorem make_move_piece_count (self self' : ChessBoard) (sr sc er ec : Z) :
  wf_board (board self) ->
  make_move (sr, sc) (er, ec) self = (Ok true, self') ->
  exists p t,
    board_get (board self) sr sc = Ok (Some p) /\
    board_get (board self) er ec = Ok t /\
    (count_pieces (board self') + cell_weight t
     = count_pieces (board self))%nat /\
    count_color (color p) (board self') = count_color (color p) (board self).
Proof.
  intros Hwf Hm. pose proof (make_move_true_valid _ _ _ _ Hm) as Hv.
  destruct (make_move_weight cell_weight self sr sc er ec
              eq_refl (fun p => eq_refl) Hwf Hv)
    as (p & t & Hs & He & Hc & Hw).
  destruct (make_move_weight (color_weight (color p)) self sr sc er ec
              eq_refl (fun p => eq_refl) Hwf Hv)
    as (p' & t' & Hs' & He' & _ & Hw').
  rewrite Hs in Hs'. injection Hs' as <-. rewrite He in He'. injection He' as <-.
  rewrite Hm in Hw, Hw'. cbn [snd] in Hw, Hw'.
  exists p, t. split; [exact Hs|]. split; [exact He|].
  unfold weigh in Hw, Hw'. unfold count_pieces, count_color.
  split; [exact Hw|]. rewrite <- Hw'.
  destruct t as [q|]; cbn [color_weight]; [|lia].
  rewrite bool_decide_eq_false_2 by (apply Hc; reflexivity). lia.
Qed.

Lemma make_move_piece_count_witness :
  exists p t,
    board_get (board initial_board) 0 0 = Ok (Some p) /\
    board_get (board initial_board) 6 0 = Ok t /\
    (count_pieces (board (make_move (0, 0)%Z (6, 0)%Z initial_board).2)
     + cell_weight t
     = count_pieces (board initial_board))%nat /\
    count_color (color p) (board (make_move (0, 0) (6, 0) initial_board).2)
    = count_color (color p) (board initial_board).
Proof.
  apply (make_move_piece_count initial_board
           (make_move (0, 0) (6, 0) initial_board).2 0 0 6 0).
  - exact initial_board_wf.
  - vm_compute. reflexivity.
Defined.

(** X5. Along any run of calls from the constructor each colour has at most
    its 16 pieces. *)
Theorem run_calls_piece_bound (moves : list (pos * pos)) (fresh : ChessBoard) (c : Color) :
  ChessBoard_init = Ok fresh ->
  (count_color c (board (run_calls moves fresh)) <= 16)%nat.
Proof.
  intros Hinit. rewrite ChessBoard_init_eq in Hinit. injection Hinit as <-.
  assert (count_color c (board initial_board) <= 16)%nat as Hc
    by (destruct c; vm_compute; lia).
  pose proof initial_board_wf as Hwf. revert Hwf Hc.
  generalize initial_board. induction moves as [|[s e] moves IH]; intros self Hwf Hc.
  - exact Hc.
  - cbn [run_calls]. apply IH; [apply make_move_wf; exact Hwf|].
    pose proof (make_move_count_color_le c self s e Hwf). lia.
Qed.

Lemma run_calls_piece_bound_witness :
  (count_color BLACK (board (run_calls [((0, 0), (6, 0))%Z] initial_board)) <= 16)%nat.
Proof. apply (run_calls_piece_bound _ initial_board BLACK). exact ChessBoard_init_eq. Defined.

(** ** The rejections and the exceptions of [is_valid_move] *)

(** X6. An end off the board is rejected before anything is read. *)
Theorem end_off_board_rejected (self : ChessBoard) (start_pos end_pos : pos) :
  ~ on_board end_pos ->
  is_valid_move self start_pos end_pos = Ok false /\
  make_move start_pos end_pos self = (Ok false, self).
Proof.
  intros Hoff.
  assert (is_valid_move self start_pos end_pos = Ok false) as Hv.
  { unfold is_valid_move.
    destruct (_is_within_bounds end_pos) eqn:Hb; [|reflexivity].
    destruct end_pos as [er ec]. apply within_bounds_iff in Hb. contradiction. }
  split; [exact Hv|]. unfold make_move. rewrite Hv. reflexivity.
Qed.

Lemma end_off_board_rejected_witness :
  is_valid_move initial_board (99, -99) (0, 8) = Ok false /\
  make_move (99, -99) (0, 8) initial_board = (Ok false, initial_board).
Proof.
  apply (end_off_board_rejected initial_board (99, -99) (0, 8)).
  unfold on_board; simpl; lia.
Defined.

(** X7. The null move is never legal, wherever it is asked for. *)
Theorem null_move_rejected (self : ChessBoard) (p : pos) :
  wf_board (board self) -> is_valid_move self p p = Ok false.
Proof.
  intros Hwf. destruct p as [r c]. unfold is_valid_move.
  destruct (_is_within_bounds (r, c)) eqn:Hb; cbn [negb]; [|reflexivity].
  apply within_bounds_iff in Hb. destruct Hb as [Hr Hc].
  destruct (board_get_in_bounds _ Hwf r c Hr Hc) as [[q|] ->]; cbn [bind];
    [|reflexivity].
  rewrite bool_decide_eq_true_2 by reflexivity. reflexivity.
Qed.

Lemma null_move_rejected_witness : is_valid_move initial_board (0, 0) (0, 0) = Ok false.
Proof. apply (null_move_rejected initial_board (0, 0)). exact initial_board_wf. Defined.

(** X8. A destination that holds a piece of the mover's colour is rejected,
    whatever the kind of the mover and the geometry of the move. *)
Theorem own_piece_blocked (self : ChessBoard) (sr sc er ec : Z) (p q : Piece) :
  board_get (board self) sr sc = Ok (Some p) ->
  board_get (board self) er ec = Ok (Some q) ->
  color q = color p ->
  is_valid_move self (sr, sc) (er, ec) = Ok false.
Proof.
  intros Hs He Hcol. unfold is_valid_move.
  destruct (_is_within_bounds (er, ec)); cbn [negb]; [|reflexivity].
  rewrite Hs. cbn [bind]. rewrite He. cbn [bind].
  rewrite bool_decide_eq_true_2 by exact Hcol. reflexivity.
Qed.

Lemma own_piece_blocked_witness : is_valid_move initial_board (0, 0) (1, 0) = Ok false.
Proof.
  apply (own_piece_blocked initial_board 0 0 1 0
           (new_piece ROOK WHITE) (new_piece PAWN WHITE)); reflexivity.
Defined.

(** X9. The verdict depends on the board only through the start and the end
    square: no other square is consulted, and neither is [current_turn]. *)
Theorem verdict_reads_two_squares (self1 self2 : ChessBoard) (sr sc er ec : Z) :
  board_get (board self1) sr sc = board_get (board self2) sr sc ->
  board_get (board self1) er ec = board_get (board self2) er ec ->
  is_valid_move self1 (sr, sc) (er, ec) = is_valid_move self2 (sr, sc) (er, ec).
Proof.
  intros Hs He. unfold is_valid_move.
  destruct (_is_within_bounds (er, ec)); cbn [negb]; [|reflexivity].
  rewrite Hs. destruct (board_get (board self2) sr sc) as [[p|]|]; cbn [bind];
    [|reflexivity..].
  rewrite He. destruct (board_get (board self2) er ec) as [t|] eqn:Ht; cbn [bind];
    [|reflexivity].
  destruct (match t with
            | Some t0 => bool_decide (color t0 = color p)
            | None => false
            end); [reflexivity|].
  destruct (calculate_slope (sr, sc) (er, ec)) as [slope|]; cbn [bind]; [|reflexivity].
  destruct (piece_type p); try reflexivity.
  unfold _is_valid_pawn_move. rewrite He, Ht, load_global_piece. reflexivity.
Qed.

Lemma verdict_reads_two_squares_witness :
  is_valid_move initial_board (0, 0) (6, 0)
  = is_valid_move (mkBoard (board no_white_pawns) BLACK) (0, 0) (6, 0).
Proof.
  apply (verdict_reads_two_squares
           initial_board (mkBoard (board no_white_pawns) BLACK) 0 0 6 0);
    reflexivity.
Defined.

(** On a well-formed board the slope of a pair that got past the reads is
    computed without an exception. *)
Lemma slope_after_reads (sr sc er ec : Z) :
  -8 <= sr < 8 -> -8 <= sc < 8 -> 0 <= er < 8 -> 0 <= ec < 8 ->
  exists slope, calculate_slope (sr, sc) (er, ec) = Ok slope.
Proof.
  intros Hsr Hsc Her Hec. rewrite slope_translate.
  destruct (slope_on_board (er - sr) (ec - sc)) as (slope & Hs & _); [lia..|].
  eauto.
Qed.

(** The pawn predicate with the destination cell known. *)
Lemma pawn_verdict (self : ChessBoard) (sr sc er ec : Z) (c : Color) (t : option Piece) :
  board_get (board self) er ec = Ok t ->
  _is_valid_pawn_move self (sr, sc) (er, ec) c =
    if sc =? ec then
      if er - sr =? direction_of c then Ok (bool_decide (t = None))
      else Raise NameError
    else Ok ((Z.abs (ec - sc) =? 1) && (er - sr =? direction_of c)
             && negb (bool_decide (t = None))).
Proof.
  intros Ht. unfold _is_valid_pawn_move. fold (direction_of c).
  rewrite Ht, load_global_piece. cbn [bind].
  destruct (sc =? ec); [reflexivity|].
  destruct ((Z.abs (ec - sc) =? 1) && (er - sr =? direction_of c)); reflexivity.
Qed.

(** X10. On a well-formed board [is_valid_move] raises only in two ways:
    [IndexError] for a start the grid does not accept, [NameError] for a pawn
    asked to move within its column other than one step forward. *)
Theorem is_valid_move_exceptions (self : ChessBoard) (sr sc er ec : Z) (e : exn) :
  wf_board (board self) ->
  is_valid_move self (sr, sc) (er, ec) = Raise e ->
  on_board (er, ec) /\
  ((e = IndexError /\ ~ indexable (sr, sc)) \/
   (e = NameError /\ sc = ec /\
    exists p, board_get (board self) sr sc = Ok (Some p) /\
              piece_type p = PAWN /\ er - sr <> direction_of (color p))).
Proof.
  intros Hwf. unfold is_valid_move.
  destruct (_is_within_bounds (er, ec)) eqn:Hb; cbn [negb]; [|discriminate].
  apply within_bounds_iff in Hb. destruct Hb as [Her Hec].
  intros H. split; [split; assumption|].
  destruct (board_get (board self) sr sc) as [[p|]|e'] eqn:Hs; cbn [bind] in H;
    [|discriminate|].
  - right.
    destruct (board_get_Ok_range _ Hwf sr sc _ Hs) as [Hsr Hsc].
    destruct (board_get_in_bounds _ Hwf er ec Her Hec) as [t Ht].
    rewrite Ht in H. cbn [bind] in H.
    destruct (match t with
              | Some t0 => bool_decide (color t0 = color p)
              | None => false
              end); [discriminate|].
    destruct (slope_after_reads sr sc er ec Hsr Hsc Her Hec) as [slope Hsl].
    rewrite Hsl in H. cbn [bind] in H.
    destruct (piece_type p) eqn:Hk; try discriminate.
    rewrite (pawn_verdict self sr sc er ec (color p) t Ht) in H.
    destruct (Z.eqb_spec sc ec) as [Hcol|]; [|discriminate].
    destruct (Z.eqb_spec (er - sr) (direction_of (color p))); [discriminate|].
    injection H as <-. repeat split; [assumption|]. exists p. auto.
  - left. injection H as <-.
    assert (e' = IndexError) as ->.
    { unfold board_get in Hs.
      destruct (getitem (board self) sr) as [r|e1] eqn:Hr; cbn [bind] in Hs.
      - eapply getitem_IndexError_only, Hs.
      - injection Hs as <-. eapply getitem_IndexError_only, Hr. }
    split; [reflexivity|]. intros [Hsr Hsc]. cbn [fst snd] in *.
    destruct (board_get_index_range _ sr sc Hwf Hsr Hsc) as [x Hx]. congruence.
Qed.

Lemma is_valid_move_exceptions_witness :
  on_board (2, 3) /\
  ((NameError = IndexError /\ ~ indexable (1, 3)) \/
   (NameError = NameError /\ 3 = 3 /\
    exists p, board_get (board initial_board) 1 3 = Ok (Some p) /\
              piece_type p = PAWN /\ 2 - 1 <> direction_of (color p))).
Proof.
  apply (is_valid_move_exceptions initial_board 1 3 2 3 NameError).
  - exact initial_board_wf.
  - vm_compute. reflexivity.
Defined.

(** X11. A pawn asked to move within its column by anything but one step
    forward - backwards, two squares, seven - makes [is_valid_move] raise
    [NameError]; it never answers [False]. *)
Theorem pawn_column_move_raises (self : ChessBoard) (sr sc er : Z) (p : Piece) :
  wf_board (board self) -> on_board (er, sc) ->
  board_get (board self) sr sc = Ok (Some p) ->
  piece_type p = PAWN ->
  not_own_piece self (er, sc) p ->
  er - sr <> direction_of (color p) ->
  is_valid_move self (sr, sc) (er, sc) = Raise NameError.
Proof.
  intros Hwf Hon Hs Hk Hown Hd.
  destruct (destination_read self (er, sc) p Hwf Hon Hown) as (Hb & t & Ht & Hc).
  rewrite (is_valid_move_dispatch self (sr, sc) (er, sc) p t Hb Hs Ht Hc).
  unfold calculate_slope. rewrite Z.sub_diag. cbn [Z.eqb bind]. rewrite Hk.
  apply pawn_same_column_raises. exact Hd.
Qed.

Lemma pawn_column_move_raises_witness :
  is_valid_move pawn_example (6, 3) (7, 3) = Raise NameError.
Proof.
  apply (pawn_column_move_raises pawn_example 6 3 7 (new_piece PAWN WHITE)).
  - split; [reflexivity | repeat constructor].
  - unfold on_board; simpl; lia.
  - reflexivity.
  - reflexivity.
  - intros q Hq. vm_compute in Hq. discriminate.
  - vm_compute. discriminate.
Defined.

(** X12. Out of its column a pawn is answered without an exception, and the
    answer is [True] exactly for one step forward, one column aside, onto an
    occupied square. *)
Theorem pawn_leaving_column (self : ChessBoard) (sr sc er ec : Z) (p : Piece) :
  wf_board (board self) -> on_board (er, ec) ->
  board_get (board self) sr sc = Ok (Some p) ->
  piece_type p = PAWN ->
  not_own_piece self (er, ec) p ->
  sc <> ec ->
  exists v,
    is_valid_move self (sr, sc) (er, ec) = Ok v /\
    (v = true <->
     Z.abs (ec - sc) = 1 /\ er - sr = direction_of (color p) /\
     exists q, board_get (board self) er ec = Ok (Some q)).
Proof.
  intros Hwf Hon Hs Hk Hown Hcol.
  destruct (destination_read self (er, ec) p Hwf Hon Hown) as (Hb & t & Ht & Hc).
  cbn [fst snd] in Ht.
  rewrite (is_valid_move_dispatch self (sr, sc) (er, ec) p t Hb Hs Ht Hc).
  destruct (board_get_Ok_range _ Hwf sr sc _ Hs) as [Hsr Hsc].
  destruct Hon as [Her Hec]. cbn [fst snd] in *.
  destruct (slope_after_reads sr sc er ec Hsr Hsc Her Hec) as [slope ->].
  cbn [bind]. rewrite Hk, (pawn_verdict self sr sc er ec (color p) t Ht).
  destruct (Z.eqb_spec sc ec); [contradiction|].
  eexists. split; [reflexivity|].
  rewrite !andb_true_iff, negb_true_iff, bool_decide_eq_false, !Z.eqb_eq, Ht.
  split.
  - intros [[? ?] Hn]. repeat split; try assumption.
    destruct t as [q|]; [eauto | contradiction].
  - intros (? & ? & q & [= ->]). repeat split; try assumption. discriminate.
Qed.

Lemma pawn_leaving_column_witness :
  exists v,
    is_valid_move pawn_example (6, 3) (4, 5) = Ok v /\
    (v = true <->
     Z.abs (5 - 3) = 1 /\ 4 - 6 = direction_of (color (new_piece PAWN WHITE)) /\
     exists q, board_get (board pawn_example) 4 5 = Ok (Some q)).
Proof.
  apply (pawn_leaving_column pawn_example 6 3 4 5 (new_piece PAWN WHITE)).
  - split; [reflexivity | repeat constructor].
  - unfold on_board; simpl; lia.
  - reflexivity.
  - reflexivity.
  - intros q Hq. vm_compute in Hq. discriminate.
  - lia.
Defined.

(** ** Every kind but the pawn, on integer deltas *)

Lemma knight_L_shape_iff (sr sc er ec : Z) :
  _is_valid_knight_move (sr, sc) (er, ec)
  = integer_geometry KNIGHT (er - sr) (ec - sc).
Proof.
  unfold _is_valid_knight_move, integer_geometry, sorted. cbn [foldr insert_sorted].
  destruct (Z.leb_spec0 (Z.abs (er - sr)) (Z.abs (ec - sc)));
    destruct (Z.eqb_spec (Z.abs (er - sr)) 1), (Z.eqb_spec (Z.abs (ec - sc)) 2),
             (Z.eqb_spec (Z.abs (er - sr)) 2), (Z.eqb_spec (Z.abs (ec - sc)) 1);
    cbn [andb orb];
    first [ apply bool_decide_eq_true_2; f_equal; [lia | f_equal; lia]
          | apply bool_decide_eq_false_2; intros [= ? ?]; lia ].
Qed.

(** X13. For every kind but the pawn, the verdict of [is_valid_move] on the
    board is the integer geometry of the kind: the float slope decides
    nothing else, and nothing in between is looked at. *)
Theorem verdict_is_integer_geometry (self : ChessBoard) (sr sc er ec : Z) (p : Piece) :
  wf_board (board self) -> on_board (er, ec) ->
  board_get (board self) sr sc = Ok (Some p) ->
  piece_type p <> PAWN ->
  not_own_piece self (er, ec) p ->
  is_valid_move self (sr, sc) (er, ec)
  = Ok (integer_geometry (piece_type p) (er - sr) (ec - sc)).
Proof.
  intros Hwf Hon Hs Hk Hown.
  destruct (destination_read self (er, ec) p Hwf Hon Hown) as (Hb & t & Ht & Hc).
  rewrite (is_valid_move_dispatch self (sr, sc) (er, ec) p t Hb Hs Ht Hc).
  destruct (board_get_Ok_range _ Hwf sr sc _ Hs) as [Hsr Hsc].
  destruct Hon as [Her Hec]. cbn [fst snd] in *.
  assert ((sr, sc) <> (er, ec)) as Hne.
  { intros [= -> ->]. cbn [fst snd] in Ht. rewrite Hs in Ht. injection Ht as <-.
    exact (Hc p eq_refl eq_refl). }
  rewrite pair_neq in Hne.
  rewrite slope_translate.
  destruct (slope_on_board (er - sr) (ec - sc)) as (slope & Hsl & H0 & Hinf & H1);
    [lia..|].
  rewrite Hsl. cbn [bind].
  destruct (piece_type p); [contradiction | | | | |]; f_equal.
  - apply knight_L_shape_iff.
  - unfold _is_valid_bishop_move, integer_geometry. exact H1.
  - unfold _is_valid_rook_move, integer_geometry. rewrite H0, Hinf.
    destruct (Z.eqb_spec (er - sr) 0), (Z.eqb_spec (ec - sc) 0); reflexivity.
  - unfold _is_valid_queen_move, integer_geometry. rewrite H0, Hinf, H1.
    destruct (Z.eqb_spec (er - sr) 0), (Z.eqb_spec (ec - sc) 0),
      (Z.eqb_spec (Z.abs (er - sr)) (Z.abs (ec - sc))); cbn [andb orb negb];
      try reflexivity; lia.
  - apply (king_distance_suffices sr sc er ec slope); [lia..|].
    rewrite slope_translate. exact Hsl.
Qed.

Lemma verdict_is_integer_geometry_witness :
  is_valid_move initial_board (0, 3) (6, 3)
  = Ok (integer_geometry (piece_type (new_piece QUEEN WHITE)) (6 - 0) (3 - 3)).
Proof.
  apply (verdict_is_integer_geometry initial_board 0 3 6 3 (new_piece QUEEN WHITE)).
  - exact initial_board_wf.
  - unfold on_board; simpl; lia.
  - reflexivity.
  - discriminate.
  - intros q Hq. vm_compute in Hq. injection Hq as <-. discriminate.
Defined.

(** ** The slope and the distance on all integers *)

Lemma truediv_opp (a b : Z) : a <> 0 -> truediv (- a) (- b) = truediv a b.
Proof.
  intros Ha. unfold truediv.
  destruct (Z.eqb_spec b 0) as [->|Hb]; [reflexivity|].
  destruct (Z.eqb_spec (- b) 0); [lia|].
  destruct a, b; try contradiction; reflexivity.
Qed.

Lemma truediv_zero (b : Z) :
  b <> 0 -> truediv 0 b = Ok (S754_zero (b <? 0)) /\ truediv 0 (- b) = Ok (S754_zero (negb (b <? 0))).
Proof. intros Hb. destruct b; [contradiction|split; reflexivity..]. Qed.

(** X14. A pair and the reversed pair have the same slope up to the sign of
    zero, on all integers and exceptions included; so the four slope
    predicates give a move and its reverse the same verdict. *)
Theorem slope_reversed (start_pos end_pos : pos) :
  match calculate_slope start_pos end_pos, calculate_slope end_pos start_pos with
  | Ok a, Ok b =>
    (a = b \/ exists x, a = S754_zero x /\ b = S754_zero (negb x)) /\
    _is_valid_bishop_move a = _is_valid_bishop_move b /\
    _is_valid_rook_move a = _is_valid_rook_move b /\
    _is_valid_queen_move a = _is_valid_queen_move b /\
    (forall d, _is_valid_king_move a d = _is_valid_king_move b d)
  | Raise x, Raise y => x = y
  | _, _ => False
  end.
Proof.
  destruct start_pos as [sr sc], end_pos as [er ec]. unfold calculate_slope.
  destruct (Z.eqb_spec (ec - sc) 0), (Z.eqb_spec (sc - ec) 0); [|lia|lia|].
  - repeat split; try reflexivity. left; reflexivity.
  - destruct (Z.eq_dec (er - sr) 0) as [Hr|Hr].
    + rewrite Hr. replace (sr - er) with 0 by lia.
      replace (sc - ec) with (- (ec - sc)) by lia.
      destruct (truediv_zero (ec - sc)) as [-> ->]; [assumption|].
      split; [right; eauto|]. destruct (ec - sc <? 0); repeat split.
    + replace (sr - er) with (- (er - sr)) by lia.
      replace (sc - ec) with (- (ec - sc)) by lia.
      rewrite truediv_opp by exact Hr.
      destruct (truediv (er - sr) (ec - sc)); [|reflexivity].
      repeat split; try reflexivity. left; reflexivity.
Qed.

(** X15. The vertical sentinel is returned for vertical pairs only: a quotient
    that overflows raises [OverflowError], which is the only exception
    [calculate_slope] has, and it does occur. *)
Theorem slope_sentinel_and_overflow :
  (forall start_pos end_pos,
     calculate_slope start_pos end_pos = Ok inf <-> end_pos.2 - start_pos.2 = 0) /\
  (forall start_pos end_pos e,
     calculate_slope start_pos end_pos = Raise e ->
     e = OverflowError /\ end_pos.2 - start_pos.2 <> 0) /\
  calculate_slope (0, 0) (2 ^ 1024, 1) = Raise OverflowError.
Proof.
  repeat apply conj.
  - intros [sr sc] [er ec]. unfold calculate_slope, truediv. cbn [fst snd].
    destruct (Z.eqb_spec (ec - sc) 0) as [H0|H0]; [tauto|].
    split; [|contradiction].
    destruct (SFdiv prec emax (exact (er - sr)) (exact (ec - sc))); discriminate.
  - intros [sr sc] [er ec] e. unfold calculate_slope, truediv. cbn [fst snd].
    destruct (Z.eqb_spec (ec - sc) 0) as [H0|H0]; [discriminate|].
    destruct (SFdiv prec emax (exact (er - sr)) (exact (ec - sc)));
      try discriminate.
    intros [= <-]. split; [reflexivity | assumption].
  - vm_compute. reflexivity.
Qed.

(** X16. [calculate_distance] is the Chebyshev metric, not the Manhattan
    distance its docstring names: symmetric, zero on equal positions only,
    with the triangle inequality, and at most the Manhattan distance. *)
Theorem distance_is_chebyshev (a b c : pos) :
  calculate_distance a b = calculate_distance b a /\
  (calculate_distance a b = 0 <-> a = b) /\
  calculate_distance a c <= calculate_distance a b + calculate_distance b c /\
  Z.abs (b.1 - a.1) <= calculate_distance a b /\
  Z.abs (b.2 - a.2) <= calculate_distance a b /\
  calculate_distance a b <= Z.abs (b.1 - a.1) + Z.abs (b.2 - a.2) /\
  calculate_distance (0, 0) (1, 1) = 1.
Proof.
  destruct a as [ar ac], b as [br bc], c as [cr cc].
  unfold calculate_distance. cbn [fst snd].
  repeat apply conj; try lia.
  - intros H. f_equal; lia.
  - intros [= -> ->]. lia.
Qed.

(** ** [get_piece] and the constructor *)

(** X17. [get_piece] never raises on a well-formed board: off the board, also
    at the negative indices the grid itself would accept, it answers [None];
    on the board it answers the cell. *)
Theorem get_piece_total (self : ChessBoard) (row col : Z) :
  wf_board (board self) ->
  exists x,
    get_piece self row col = Ok x /\
    (~ on_board (row, col) -> x = None) /\
    (on_board (row, col) -> board_get (board self) row col = Ok x).
Proof.
  intros Hwf. unfold get_piece.
  destruct (_is_within_bounds (row, col)) eqn:Hb.
  - apply within_bounds_iff in Hb. destruct Hb as [Hr Hc].
    destruct (board_get_in_bounds _ Hwf row col Hr Hc) as [x Hx].
    exists x. rewrite Hx. split; [reflexivity|]. split.
    + intros Hoff. exfalso. apply Hoff. split; assumption.
    + intros _. reflexivity.
  - exists None. split; [reflexivity|]. split; [intros _; reflexivity|].
    intros [Hr Hc]. cbn [fst snd] in *.
    assert (_is_within_bounds (row, col) = true) by (apply within_bounds_iff; auto).
    congruence.
Qed.

Lemma get_piece_total_witness :
  exists x,
    get_piece initial_board (-1) 0 = Ok x /\
    (~ on_board (-1, 0) -> x = None) /\
    (on_board (-1, 0) -> board_get (board initial_board) (-1) 0 = Ok x).
Proof. apply (get_piece_total initial_board (-1) 0). exact initial_board_wf. Defined.

Lemma small_cases (x : Z) :
  0 <= x < 8 -> x = 0 \/ x = 1 \/ x = 2 \/ x = 3 \/ x = 4 \/ x = 5 \/ x = 6 \/ x = 7.
Proof. lia. Qed.

(** X18. The constructor returns, without an exception, a well-formed board
    with white to move and 16 pieces of each colour, none of them moved: in
    every column a white pawn on row 1, a black pawn on row 6, the piece of
    [piece_order] for that column on rows 0 (white) and 7 (black), and
    nothing on rows 2 to 5. *)
Theorem constructor_layout :
  exists fresh,
    ChessBoard_init = Ok fresh /\
    wf_board (board fresh) /\
    current_turn fresh = WHITE /\
    count_color WHITE (board fresh) = 16%nat /\
    count_color BLACK (board fresh) = 16%nat /\
    forall col, 0 <= col < 8 ->
      get_piece fresh 1 col = Ok (Some (new_piece PAWN WHITE)) /\
      get_piece fresh 6 col = Ok (Some (new_piece PAWN BLACK)) /\
      (exists kind,
         getitem piece_order col = Ok kind /\
         get_piece fresh 0 col = Ok (Some (new_piece kind WHITE)) /\
         get_piece fresh 7 col = Ok (Some (new_piece kind BLACK))) /\
      (forall row, 2 <= row <= 5 -> get_piece fresh row col = Ok None).
Proof.
  exists initial_board.
  split; [exact ChessBoard_init_eq|]. split; [exact initial_board_wf|].
  do 3 (split; [reflexivity|]).
  intros col Hcol.
  destruct (small_cases col Hcol) as [->|[->|[->|[->|[->|[->|[->| ->]]]]]]];
    (split; [reflexivity|]); (split; [reflexivity|]);
    (split; [eexists; repeat split; reflexivity|]);
    intros row Hrow;
    (assert (row = 2 \/ row = 3 \/ row = 4 \/ row = 5) as [->|[->|[->| ->]]] by lia);
    reflexivity.
Qed.

(** Where the starting position has its pawns, and what stands on the two
    back ranks. *)
Lemma initial_pawn_rows (r c : nat) (p : Piece) :
  grid_lookup (board initial_board) r c = Some (Some p) ->
  piece_type p = PAWN ->
  (r = 1%nat /\ color p = WHITE) \/ (r = 6%nat /\ color p = BLACK).
Proof.
  intros H Hk.
  do 8 (destruct r as [|r];
        [ do 8 (destruct c as [|c];
                [ vm_compute in H; try discriminate H; injection H as <-;
                  first [discriminate Hk | left; split; reflexivity
                        | right; split; reflexivity] |]);
          vm_compute in H; discriminate H |]).
  vm_compute in H. discriminate H.
Qed.

Lemma initial_back_ranks (c : nat) :
  (c < 8)%nat ->
  (exists q, grid_lookup (board initial_board) 0 c = Some (Some q) /\ color q = WHITE) /\
  (exists q, grid_lookup (board initial_board) 7 c = Some (Some q) /\ color q = BLACK).
Proof.
  intros Hc.
  do 8 (destruct c as [|c]; [split; eexists; split; reflexivity|]). lia.
Qed.

(** X19. On the board the constructor returns, no move of a pawn is accepted:
    every pawn faces its own back rank. *)
Theorem no_pawn_move_at_start (sr sc er ec : Z) (p : Piece) :
  board_get (board initial_board) sr sc = Ok (Some p) ->
  piece_type p = PAWN ->
  is_valid_move initial_board (sr, sc) (er, ec) <> Ok true.
Proof.
  intros Hs Hk Hv.
  pose proof initial_board_wf as Hwf.
  destruct (is_valid_move_true_inv initial_board sr sc er ec Hv)
    as (Hb & p' & t & Hs' & Ht & Hc).
  rewrite Hs in Hs'. injection Hs' as <-.
  pose proof Hb as Hb'. apply within_bounds_iff in Hb'. destruct Hb' as [Her Hec].
  destruct (board_get_Ok_range _ Hwf sr sc _ Hs) as [Hsr Hsc].
  rewrite (is_valid_move_dispatch initial_board (sr, sc) (er, ec) p t Hb Hs Ht Hc) in Hv.
  destruct (slope_after_reads sr sc er ec Hsr Hsc Her Hec) as [slope Hsl].
  rewrite Hsl, Hk in Hv. cbn [bind] in Hv.
  rewrite (pawn_verdict initial_board sr sc er ec (color p) t Ht) in Hv.
  assert (er - sr = direction_of (color p)) as Hdir.
  { destruct (sc =? ec).
    - destruct (Z.eqb_spec (er - sr) (direction_of (color p))); [assumption|discriminate].
    - injection Hv as Hv. rewrite !andb_true_iff, !Z.eqb_eq in Hv. tauto. }
  pose proof (grid_lookup_of_get _ _ _ _ Hwf Hs) as Hx.
  pose proof (grid_lookup_of_get _ _ _ _ Hwf Ht) as Hy.
  rewrite (norm_index_on_board er Her) in Hy.
  destruct (initial_back_ranks (norm_index ec) (norm_index_lt ec))
    as [(qw & Hqw & Hw) (qb & Hqb & Hbk)].
  pose proof (norm_index_wrapped sr) as Hn.
  assert (sr `mod` 8 = sr \/ sr `mod` 8 = sr + 8) as Hmod.
  { destruct (Z.lt_ge_cases sr 0).
    - right. rewrite <- (Z.mod_add sr 1 8), Z.mod_small; lia.
    - left. apply Z.mod_small. lia. }
  destruct (initial_pawn_rows _ _ p Hx Hk) as [[Hrow Hcol]|[Hrow Hcol]];
    rewrite Hcol in Hdir.
  - change (direction_of WHITE) with (-1) in Hdir.
    assert (er = 0) as -> by lia. change (Z.to_nat 0) with 0%nat in Hy.
    rewrite Hqw in Hy. injection Hy as <-.
    apply (Hc qw eq_refl). congruence.
  - change (direction_of BLACK) with 1 in Hdir.
    assert (er = 7) as -> by lia. change (Z.to_nat 7) with 7%nat in Hy.
    rewrite Hqb in Hy. injection Hy as <-.
    apply (Hc qb eq_refl). congruence.
Qed.

Lemma no_pawn_move_at_start_witness :
  is_valid_move initial_board (1, 3) (0, 3) <> Ok true.
Proof.
  apply (no_pawn_move_at_start 1 3 0 3 (new_piece PAWN WHITE)); reflexivity.
Defined.

(** ** The scan of [is_path_clear] on arbitrary pairs *)

Section PathTermination.

Variable g : list (list (option Piece)).
Variables dr dc : Z.
Variable end_pos : pos.
Hypothesis Hwf : wf_board g.
Hypothesis Hdr : dr = 1 \/ dr = -1 \/ dr = 0.
Hypothesis Hdc : dc = 1 \/ dc = -1 \/ dc = 0.
Hypothesis Hstep : dr <> 0 \/ dc <> 0.

(** Every read that succeeds uses up one index of the moving coordinate, and
    the grid accepts 16 of them. *)
Lemma path_loop_total (fuel : nat) :
  forall cr cc,
    (0 < fuel)%nat ->
    (-8 <= cr < 8 -> -8 <= cc < 8 ->
     (if dr =? 0 then scan_room cc dc else scan_room cr dr) < Z.of_nat fuel) ->
    exists r, path_loop fuel g cr cc dr dc end_pos = Some r.
Proof.
  induction fuel as [|fuel IH]; intros cr cc Hpos Hroom; [lia|].
  cbn [path_loop].
  destruct (bool_decide ((cr, cc) = end_pos)); [eauto|].
  destruct (board_get g cr cc) as [[q|]|e] eqn:Hcell; [eauto| |eauto].
  destruct (board_get_Ok_range g Hwf cr cc None Hcell) as [Hr Hc].
  specialize (Hroom Hr Hc).
  apply IH.
  - unfold scan_room in Hroom.
    destruct (Z.eqb_spec dr 0), (Z.eqb_spec dc 1), (Z.eqb_spec dr 1); lia.
  - intros Hr' Hc'. unfold scan_room in *.
    destruct (Z.eqb_spec dr 0), (Z.eqb_spec dc 1), (Z.eqb_spec dr 1); lia.
Qed.

End PathTermination.

(** X20. [is_path_clear] terminates on every pair of positions, on a line or
    not, on the board or not: within 17 evaluations of its loop condition it
    returns or raises. *)
Theorem is_path_clear_terminates (self : ChessBoard) (start_pos end_pos : pos)
    (fuel : nat) :
  wf_board (board self) -> (17 <= fuel)%nat ->
  exists r, is_path_clear fuel self start_pos end_pos = Some r.
Proof.
  intros Hwf Hfuel. destruct start_pos as [sr sc], end_pos as [er ec].
  unfold is_path_clear. rewrite !step_is_sgn.
  destruct (Z.eq_dec (er - sr) 0) as [Hr|Hr]; [destruct (Z.eq_dec (ec - sc) 0) as [Hc|Hc]|].
  - destruct fuel as [|fuel]; [lia|]. cbn [path_loop].
    rewrite Hr, Hc. cbn [Z.sgn]. rewrite !Z.add_0_r.
    rewrite bool_decide_eq_true_2 by (f_equal; lia). eauto.
  - apply path_loop_total; [assumption | lia | lia | lia | lia |].
    intros H1 H2. unfold scan_room.
    destruct (Z.eqb_spec (Z.sgn (er - sr)) 0), (Z.eqb_spec (Z.sgn (ec - sc)) 1),
      (Z.eqb_spec (Z.sgn (er - sr)) 1); lia.
  - apply path_loop_total; [assumption | lia | lia | lia | lia |].
    intros H1 H2. unfold scan_room.
    destruct (Z.eqb_spec (Z.sgn (er - sr)) 0), (Z.eqb_spec (Z.sgn (ec - sc)) 1),
      (Z.eqb_spec (Z.sgn (er - sr)) 1); lia.
Qed.

Lemma is_path_clear_terminates_witness :
  exists r, is_path_clear 17 pawn_example (-9, 0) (40, 0) = Some r.
Proof.
  apply (is_path_clear_terminates pawn_example (-9, 0) (40, 0) 17); [|lia].
  split; [reflexivity | repeat constructor].
Defined.

(** X21. Between equal or adjacent positions there is nothing to scan:
    [is_path_clear] returns [True] at once, reading no cell, on any board. *)
Theorem is_path_clear_adjacent (self : ChessBoard) (start_pos end_pos : pos)
    (fuel : nat) :
  calculate_distance start_pos end_pos <= 1 -> (1 <= fuel)%nat ->
  is_path_clear fuel self start_pos end_pos = Some (Ok true).
Proof.
  destruct start_pos as [sr sc], end_pos as [er ec].
  unfold calculate_distance, is_path_clear. intros Hd Hfuel.
  rewrite !step_is_sgn. destruct fuel as [|fuel]; [lia|]. cbn [path_loop].
  rewrite bool_decide_eq_true_2; [reflexivity|]. f_equal; lia.
Qed.

Lemma is_path_clear_adjacent_witness :
  is_path_clear 1 initial_board (0, 0) (1, 1) = Some (Ok true).
Proof.
  apply (is_path_clear_adjacent initial_board (0, 0) (1, 1) 1); [|lia].
  unfold calculate_distance; simpl; lia.
Defined.

(** On a line, the verdict of the scan against the squares strictly
    between. *)
Lemma is_path_clear_between (self : ChessBoard) (start_pos end_pos : pos) (fuel : nat) :
  wf_board (board self) ->
  on_board start_pos -> on_board end_pos ->
  start_pos <> end_pos -> colinear start_pos end_pos ->
  (Z.to_nat (calculate_distance start_pos end_pos) <= fuel)%nat ->
  exists v,
    is_path_clear fuel self start_pos end_pos = Some (Ok v) /\
    (v = true <->
     forall p, strictly_between start_pos end_pos p ->
               board_get (board self) p.1 p.2 = Ok None).
Proof.
  intros Hwf Hs He Hne Hcol Hfuel.
  pose proof (strictly_between_nth start_pos end_pos) as Hbetween.
  destruct start_pos as [sr sc], end_pos as [er ec].
  destruct (line_facts sr sc er ec Hs He Hcol Hne) as (Hstep & Hd & Her & Hec & Hon).
  unfold nth_square in Hbetween. cbn [fst snd] in *.
  set (d := calculate_distance (sr, sc) (er, ec)) in *.
  set (dr := Z.sgn (er - sr)) in *. set (dc := Z.sgn (ec - sc)) in *.
  destruct (path_loop_scan (board self) sr sc dr dc d Hwf Hstep Hon
              (Z.to_nat (d - 1)) 1 fuel) as (v & Hv & Hiff); [lia..|].
  exists v. split.
  - unfold is_path_clear. rewrite !step_is_sgn. fold dr dc.
    rewrite !Z.mul_1_l in Hv. rewrite <- Her, <- Hec in Hv. exact Hv.
  - rewrite Hiff. split.
    + intros Hall p Hp. apply (Hbetween p Hcol Hne) in Hp as (j & Hj & ->).
      apply Hall. lia.
    + intros Hall j Hj.
      apply (Hall (sr + j * dr, sc + j * dc)).
      apply (Hbetween _ Hcol Hne). exists j. split; [lia | reflexivity].
Qed.

Lemma strictly_between_sym (start_pos end_pos p : pos) :
  strictly_between start_pos end_pos p -> strictly_between end_pos start_pos p.
Proof.
  destruct start_pos as [sr sc], end_pos as [er ec], p as [pr pc].
  unfold strictly_between. cbn [fst snd].
  intros (H1 & H2 & Hx & H3 & H4). repeat split; try assumption; lia.
Qed.

(** X22. On a line the scan gives the same answer in both directions. *)
Theorem is_path_clear_symmetric (self : ChessBoard) (start_pos end_pos : pos)
    (fuel : nat) :
  wf_board (board self) ->
  on_board start_pos -> on_board end_pos ->
  start_pos <> end_pos -> colinear start_pos end_pos ->
  (Z.to_nat (calculate_distance start_pos end_pos) <= fuel)%nat ->
  is_path_clear fuel self start_pos end_pos = is_path_clear fuel self end_pos start_pos.
Proof.
  intros Hwf Hs He Hne Hcol Hfuel.
  destruct (is_path_clear_between self start_pos end_pos fuel Hwf Hs He Hne Hcol Hfuel)
    as (v & -> & Hv).
  assert (colinear end_pos start_pos) as Hcol'.
  { destruct start_pos, end_pos. unfold colinear in *. cbn [fst snd] in *. lia. }
  assert (calculate_distance end_pos start_pos = calculate_distance start_pos end_pos)
    as Hdist.
  { destruct start_pos, end_pos. unfold calculate_distance. lia. }
  destruct (is_path_clear_between self end_pos start_pos fuel Hwf He Hs) as (v' & -> & Hv');
    [congruence | assumption | rewrite Hdist; assumption |].
  do 2 f_equal.
  assert (v = true <-> v' = true) as Hiff.
  { rewrite Hv, Hv'. split; intros Hall p Hp; apply Hall, strictly_between_sym, Hp. }
  destruct v, v'; try reflexivity; [symmetry|]; apply Hiff; reflexivity.
Qed.

Lemma is_path_clear_symmetric_witness :
  is_path_clear 7 initial_board (0, 0) (7, 7) = is_path_clear 7 initial_board (7, 7) (0, 0).
Proof.
  apply (is_path_clear_symmetric initial_board (0, 0) (7, 7) 7).
  - exact initial_board_wf.
  - unfold on_board; simpl; lia.
  - unfold on_board; simpl; lia.
  - discriminate.
  - unfold colinear; simpl; lia.
  - vm_compute. lia.
Defined.
